(** * QFT on neutral atoms: the circuit builder and its compiler pass

    A shallow embedding of the notebook [QFT_Neutral_Atoms.ipynb]:
    - [QASM]      the qasm2 statements a kernel executes, and the kernels
                  [dyadic_roatation_layer], [cnot_fanout_layer], [qft_program];
    - [Pipeline]  the compiler pass [run_pass] of the dialect group
                  [extended_opt], over a store of method objects;
    - [IR], [Engine], [Scheduler], [CircuitIR]  the passes that the notebook
                  imports from bloqade and kirin, modelled from the
                  specification;
    - [Samples]   concrete circuits and rule tables. *)

From Stdlib Require Import ZArith List String Ascii Bool Lia Sorted DecimalString.
From stdpp Require Import base option list gmap strings.
Import ListNotations.

Local Open Scope Z_scope.

(** ** The qasm2 statements of the notebook's kernels *)
Module QASM.

(** A rotation angle [num * math.pi / den], kept symbolic. *)
Inductive Angle : Type := PiFrac (num den : Z).

#[global] Instance Angle_eq_dec : EqDecision Angle.
Proof. solve_decision. Defined.

(** One executed statement of a kernel.  The kernels of the notebook use one
    quantum register [qreg] and one classical register [creg]; a qubit or a
    bit is the index it is read at ([qreg[i]], [creg[i]]). *)
Inductive Stmt : Type :=
| QRegDecl (size : Z)            (* qreg = qasm2.qreg(n) *)
| CRegDecl (size : Z)            (* creg = qasm2.creg(n) *)
| X (q : Z)                      (* qasm2.x(qreg[q]) *)
| H (q : Z)                      (* qasm2.h(qreg[q]) *)
| RZ (q : Z) (theta : Angle)     (* qasm2.rz(qreg[q], theta) *)
| CX (ctrl tgt : Z)              (* qasm2.cx(qreg[ctrl], qreg[tgt]) *)
| Measure (q c : Z).             (* qasm2.measure(qreg[q], creg[c]) *)

(** Python's [range(lo, hi)]. *)
Definition range (lo hi : Z) : list Z :=
  map (fun k => lo + Z.of_nat k) (seq 0 (Z.to_nat (hi - lo))).

(** [len(bit_str)] and the test [bit_str[i] == '1']. *)
Definition len (bit_str : string) : Z := Z.of_nat (String.length bit_str).

Definition is_one (bit_str : string) (i : Z) : bool :=
  match String.get (Z.to_nat i) bit_str with
  | Some c => Ascii.eqb c "1"%char
  | None => false
  end.

(** [dyadic_roatation_layer(qreg, n, start)] *)
Definition dyadic_roatation_layer (n start : Z) : list Stmt :=
  map (fun j => RZ j (PiFrac 1 (2 ^ (j + 2)))) (range (start + 1) n).

(** [cnot_fanout_layer(qreg, n, ctrl)] *)
Definition cnot_fanout_layer (n ctrl : Z) : list Stmt :=
  map (fun j => CX ctrl j) (range (ctrl + 1) n).

(** The three loops of [qft_program]. *)
Definition init_loop (bit_str : string) : list Stmt :=
  flat_map (fun i => if is_one bit_str i then [X i] else [])
           (range 0 (len bit_str)).

Definition qft_step (n i : Z) : list Stmt :=
  [H i]
  ++ dyadic_roatation_layer n i
  ++ cnot_fanout_layer n i
  ++ dyadic_roatation_layer n i
  ++ cnot_fanout_layer n i
  ++ [RZ i (PiFrac (2 ^ (n - i + 1) - 1) (2 ^ (n - i + 2)))].

Definition main_loop (n : Z) : list Stmt := flat_map (qft_step n) (range 0 n).

Definition measure_loop (n : Z) : list Stmt :=
  map (fun i => Measure i i) (range 0 n).

(** The body of the kernel [qft_program], closed over [n] and [bit_str]. *)
Definition qft_program (n : Z) (bit_str : string) : list Stmt :=
  [QRegDecl n; CRegDecl n]
  ++ init_loop bit_str ++ main_loop n ++ measure_loop n.

(** Keyword arguments of the compiler pass; [None] is "not supplied". *)
Record kwargs : Type := Kwargs {
  kw_fold : option bool;
  kw_typeinfer : option bool;
  kw_parallelize : option bool
}.

(** A kernel under the decorator [@extended_opt(...)]: the lowered body and
    the options the decorator hands to [run_pass]. *)
Record Kernel : Type := MkKernel {
  source : list Stmt;
  options : kwargs
}.

(** [qft(n, bit_str, parallelize)]; at the call site [parallelize] defaults
    to [True]. *)
Definition qft (n : Z) (bit_str : string) (parallelize : bool) : Kernel :=
  {| source := qft_program n bit_str;
     options := Kwargs None None (Some parallelize) |}.

Definition qft_default (n : Z) (bit_str : string) : Kernel := qft n bit_str true.

(** Views of a kernel body. *)
Definition qregs (body : list Stmt) : list Z :=
  flat_map (fun s => match s with QRegDecl n => [n] | _ => [] end) body.

Definition cregs (body : list Stmt) : list Z :=
  flat_map (fun s => match s with CRegDecl n => [n] | _ => [] end) body.

Definition is_decl (s : Stmt) : bool :=
  match s with QRegDecl _ | CRegDecl _ => true | _ => false end.

Definition operations (body : list Stmt) : list Stmt :=
  List.filter (fun s => negb (is_decl s)) body.

Definition is_x (s : Stmt) : bool := match s with X _ => true | _ => false end.

Definition is_measure (s : Stmt) : bool :=
  match s with Measure _ _ => true | _ => false end.

(** The gates of the transform proper: no [X], no measurement, no
    declaration. *)
Definition is_transform_gate (s : Stmt) : bool :=
  match s with H _ | RZ _ _ | CX _ _ => true | _ => false end.

(** The positions of [bit_str] that hold ['1'], in increasing order. *)
Definition ones (bit_str : string) : list Z :=
  List.filter (is_one bit_str) (range 0 (len bit_str)).

(** The qubit indices a statement reads from [qreg]. *)
Definition qubit_refs (s : Stmt) : list Z :=
  match s with
  | QRegDecl _ | CRegDecl _ => []
  | X q | H q | RZ q _ | Measure q _ => [q]
  | CX c t => [c; t]
  end.

(** The classical bit indices a statement writes in [creg]. *)
Definition bit_refs (s : Stmt) : list Z :=
  match s with
  | Measure _ c => [c]
  | _ => []
  end.

Definition is_h (s : Stmt) : bool := match s with H _ => true | _ => false end.

Definition is_cx (s : Stmt) : bool := match s with CX _ _ => true | _ => false end.

Definition is_rz (s : Stmt) : bool := match s with RZ _ _ => true | _ => false end.

(** How many statements of a body satisfy [p]. *)
Definition count (p : Stmt -> bool) (body : list Stmt) : Z :=
  Z.of_nat (length (List.filter p body)).

End QASM.

(** ** The compiler pass [run_pass] of the dialect group [extended_opt] *)
Module Pipeline.

(** [kernel : ir.Method] is an object; passes receive a reference to it. *)
Definition ref : Type := nat.

(** What a pass is called on: the method itself, or its [code] attribute. *)
Inductive Target : Type :=
| TMethod (kernel : ref)         (* kernel *)
| TCode (kernel : ref).          (* kernel.code *)

Definition target_object (t : Target) : ref :=
  match t with TMethod k | TCode k => k end.

(** The calls [run_pass] makes, in the order it makes them. *)
Inductive Event : Type :=
| EvBase (t : Target) (fold typeinfer : bool)  (* qasm2.extended.run_pass(kernel, fold=, typeinfer=) *)
| EvNativeRewrite (t : Target)                 (* native_rewrite.rewrite(kernel.code) *)
| EvFoldFixpoint (t : Target)                  (* agg_fold.fixpoint(kernel) *)
| EvParallelize (t : Target).                  (* parallelize_pass(kernel) *)

Definition event_target (e : Event) : Target :=
  match e with
  | EvBase t _ _ | EvNativeRewrite t | EvFoldFixpoint t | EvParallelize t => t
  end.

Definition is_fold_fixpoint (e : Event) : bool :=
  match e with EvFoldFixpoint _ => true | _ => false end.

Definition is_parallelize (e : Event) : bool :=
  match e with EvParallelize _ => true | _ => false end.

Definition is_native_rewrite (e : Event) : bool :=
  match e with EvNativeRewrite _ => true | _ => false end.

Definition is_base (e : Event) : bool :=
  match e with EvBase _ _ _ => true | _ => false end.

Section extended_opt.
(** The IR held by a method, the exceptions passes raise and the values
    they return are those of kirin and bloqade. *)
Variables (Code Exn Val : Type).

Definition Store : Type := gmap ref Code.

(** A call of a library pass: it may update the store, and it returns a
    value or raises. *)
Definition Pass : Type := Target -> Store -> (Exn + Val) * Store.

Variable base_run_pass : option (bool -> bool -> Pass).  (* qasm2.extended.run_pass *)
Variable native_rewrite : Pass.      (* Walk(RydbergGateSetRewriteRule(self)).rewrite *)
Variable agg_fold : Pass.            (* QASM2Fold(self).fixpoint *)
Variable parallelize_pass : Pass.    (* UOpToParallel(self).__call__ *)

Inductive Raised : Type :=
| AssertionError
| PassError (e : Exn).

(** The state of a run: the store and the calls made so far. *)
Record World : Type := MkWorld { store : Store; trace : list Event }.

Definition M (A : Type) : Type := World -> (Raised + A) * World.

Definition ret {A} (a : A) : M A := fun w => (inr a, w).

Definition bind {A B} (m : M A) (f : A -> M B) : M B :=
  fun w => match m w with
           | (inl e, w') => (inl e, w')
           | (inr a, w') => f a w'
           end.

Definition raise {A} (e : Raised) : M A := fun w => (inl e, w).

(** Calling a pass records the call and runs it on the current store. *)
Definition call (ev : Event) (p : Pass) : M Val :=
  fun w =>
    let '(r, s') := p (event_target ev) (store w) in
    let w' := {| store := s'; trace := trace w ++ [ev] |} in
    match r with
    | inl e => (inl (PassError e), w')
    | inr v => (inr v, w')
    end.

Notation "'let!' x ':=' m 'in' k" := (bind m (fun x => k))
  (at level 10, x name, m at level 100, k at level 200).
Notation "m ';;' k" := (bind m (fun _ => k))
  (at level 100, k at level 200, right associativity).

(** [assert f is not None] *)
Definition assert_not_None {A} (f : option A) : M A :=
  match f with
  | Some a => ret a
  | None => raise AssertionError
  end.

Definition flag (default : bool) (supplied : option bool) : bool :=
  match supplied with Some b => b | None => default end.

(** [run_pass(kernel, *, fold=True, typeinfer=True, parallelize=False)];
    every call's return value is dropped and [run_pass] returns [None]. *)
Definition run_pass (kernel : ref) (kw : QASM.kwargs) : M unit :=
  let fold := flag true (QASM.kw_fold kw) in
  let typeinfer := flag true (QASM.kw_typeinfer kw) in
  let parallelize := flag false (QASM.kw_parallelize kw) in
  let! base := assert_not_None base_run_pass in
  call (EvBase (TMethod kernel) fold typeinfer) (base fold typeinfer) ;;
  call (EvNativeRewrite (TCode kernel)) native_rewrite ;;
  if parallelize then
    call (EvFoldFixpoint (TMethod kernel)) agg_fold ;;
    call (EvParallelize (TMethod kernel)) parallelize_pass ;;
    ret tt
  else ret tt.

(** The pass without its parallelization branch. *)
Definition baseline (kernel : ref) (kw : QASM.kwargs) : M unit :=
  let fold := flag true (QASM.kw_fold kw) in
  let typeinfer := flag true (QASM.kw_typeinfer kw) in
  let! base := assert_not_None base_run_pass in
  call (EvBase (TMethod kernel) fold typeinfer) (base fold typeinfer) ;;
  call (EvNativeRewrite (TCode kernel)) native_rewrite ;;
  ret tt.

(** The calls of a complete run, by the flags. *)
Definition schedule_of_calls (kernel : ref) (kw : QASM.kwargs) : list Event :=
  [EvBase (TMethod kernel) (flag true (QASM.kw_fold kw)) (flag true (QASM.kw_typeinfer kw));
   EvNativeRewrite (TCode kernel)]
  ++ (if flag false (QASM.kw_parallelize kw)
      then [EvFoldFixpoint (TMethod kernel); EvParallelize (TMethod kernel)]
      else []).

Definition start (s : Store) : World := {| store := s; trace := [] |}.

Definition returned {A} (r : (Raised + A) * World) : bool :=
  match fst r with inr _ => true | inl _ => false end.

(** A pass that does not touch the store it is given. *)
Definition pure_pass (p : Pass) : Prop := forall t s, snd (p t s) = s.

(** Replacing what a pass returns, keeping what it does to the store. *)
Definition with_result {Val'} (g : Val -> Val') (p : Pass)
  : Target -> Store -> (Exn + Val') * Store :=
  fun t s => match p t s with
             | (inl e, s') => (inl e, s')
             | (inr v, s') => (inr (g v), s')
             end.

(** No object is handed to two passes of a run. *)
Definition no_aliasing (calls : list Event) : Prop :=
  NoDup (map event_target calls).

(** Modelled from the spec: [qasm2.extended.run_pass] is imported from
    bloqade and is not under src/.  With [typeinfer] true it validates
    operation and parameter types: it returns only when the code of the
    method it was called on is well typed ([well_typed] is the library's
    judgement), and raises otherwise. *)
Definition validates_types (well_typed : Code -> bool) (base : bool -> bool -> Pass) : Prop :=
  forall fold t s v s' c,
    base fold true t s = (inr v, s') ->
    s' !! target_object t = Some c ->
    well_typed c = true.

(** The library pass behind a call. *)
Definition pass_of (ev : Event) : option Pass :=
  match ev with
  | EvBase _ fold typeinfer =>
      match base_run_pass with
      | Some base => Some (base fold typeinfer)
      | None => None
      end
  | EvNativeRewrite _ => Some native_rewrite
  | EvFoldFixpoint _ => Some agg_fold
  | EvParallelize _ => Some parallelize_pass
  end.

(** What a call does to the store, whether it returns or raises. *)
Definition effect (s : Store) (ev : Event) : Store :=
  match pass_of ev with
  | Some p => snd (p (event_target ev) s)
  | None => s
  end.

Definition effects (calls : list Event) (s : Store) : Store :=
  fold_left effect calls s.

(** The exception a call raises on a store, if it raises. *)
Definition raises (s : Store) (ev : Event) : option Exn :=
  match pass_of ev with
  | Some p =>
      match fst (p (event_target ev) s) with
      | inl e => Some e
      | inr _ => None
      end
  | None => None
  end.
End extended_opt.

Arguments AssertionError {Exn}.
Arguments PassError {Exn} e.
Arguments MkWorld {Code} store trace.
Arguments store {Code} w.
Arguments trace {Code} w.
Arguments start {Code} s.
Arguments returned {Code Exn A} r.
Arguments pure_pass {Code Exn Val} p.
Arguments with_result {Code Exn Val Val'} g p.
Arguments validates_types {Code Exn Val} well_typed base.
Arguments raises {Code Exn Val} base_run_pass native_rewrite agg_fold parallelize_pass s ev.
Arguments effects {Code Exn Val} base_run_pass native_rewrite agg_fold parallelize_pass calls s.
Arguments effect {Code Exn Val} base_run_pass native_rewrite agg_fold parallelize_pass s ev.
Arguments pass_of {Code Exn Val} base_run_pass native_rewrite agg_fold parallelize_pass ev.

(** The decorator [@extended_opt(...)]: the kernel becomes a method object
    at [r], and [run_pass] is run on it with the decorator's options. *)
Definition decorate {Exn Val : Type}
  (base_run_pass : option (bool -> bool -> Pass (list QASM.Stmt) Exn Val))
  (native_rewrite agg_fold parallelize_pass : Pass (list QASM.Stmt) Exn Val)
  (r : ref) (k : QASM.Kernel) :=
  run_pass (list QASM.Stmt) Exn Val base_run_pass native_rewrite agg_fold
    parallelize_pass r (QASM.options k) (start {[ r := QASM.source k ]}).

(** A pass that returns without touching the store, for concrete runs. *)
Definition quiet_pass : Pass (list QASM.Stmt) unit unit := fun _ s => (inr tt, s).

(** A store holding the kernel of [qft(4, "0101")] at reference 0. *)
Definition qft_ref : ref := 0%nat.

Definition qft_store : Store (list QASM.Stmt) :=
  {[ qft_ref := QASM.source (QASM.qft_default 4 "0101") ]}.

(** A pass that overwrites the code of the method it is called on. *)
Definition overwrite_pass (code : list QASM.Stmt) : Pass (list QASM.Stmt) unit unit :=
  fun t s => (inr tt, <[target_object t := code]> s).

(** A pass that returns, and a pass that empties the code of the method it
    is called on and then raises [e]; exceptions are named by strings. *)
Definition skip_pass : Pass (list QASM.Stmt) string unit := fun _ s => (inr tt, s).

Definition failing_pass (e : string) : Pass (list QASM.Stmt) string unit :=
  fun t s => (inl e, <[target_object t := []]> s).

(** A type judgement for concrete runs: no rotation divides by zero. *)
Definition angles_defined (code : list QASM.Stmt) : bool :=
  forallb (fun st => match st with
                     | QASM.RZ _ (QASM.PiFrac _ den) => negb (den =? 0)
                     | _ => true
                     end) code.

(** An inherited pass that, with [typeinfer] true, checks the code of the
    method by [well_typed] and raises when the check fails. *)
Definition checking_pass (well_typed : list QASM.Stmt -> bool)
  : bool -> bool -> Pass (list QASM.Stmt) string unit :=
  fun fold typeinfer t s =>
    if typeinfer then
      match s !! target_object t with
      | Some c => if well_typed c then (inr tt, s) else (inl "TypeError"%string, s)
      | None => (inr tt, s)
      end
    else (inr tt, s).

(** [run_pass] over the quiet passes. *)
Definition quiet_run (kernel : ref) (kw : QASM.kwargs) (s : Store (list QASM.Stmt)) :=
  run_pass (list QASM.Stmt) unit unit (Some (fun _ _ => quiet_pass))
    quiet_pass quiet_pass quiet_pass kernel kw (start s).

End Pipeline.

(** ** The circuit IR of the compiler passes *)
Module IR.

(** Modelled from the spec: the data model of the passes (Qubit,
    ClassicalBit, Operation, Circuit, Layer) belongs to bloqade and kirin,
    which the notebook imports; a qubit or bit is a register name and an
    index. *)
Definition Qubit : Type := string * nat.

(** Modelled from the spec: a ClassicalBit of the imported IR, a register
    name and an index; the target of a measurement. *)
Definition ClassicalBit : Type := string * nat.

(** Modelled from the spec: the tagged variant Operation of the imported IR,
    [Gate{kind, target_qubits, parameters}], [Measure{qubit, classical_bit}],
    [Barrier{qubit_set}]; gate kinds and parameters are left open. *)
Inductive Operation (Kind Param : Type) : Type :=
| Gate (kind : Kind) (target_qubits : list Qubit) (parameters : list Param)
| Measure (qubit : Qubit) (classical_bit : ClassicalBit)
| Barrier (qubit_set : list Qubit).

Arguments Gate {Kind Param} kind target_qubits parameters.
Arguments Measure {Kind Param} qubit classical_bit.
Arguments Barrier {Kind Param} qubit_set.

#[global] Instance Operation_eq_dec {Kind Param : Type}
  `{EqDecision Kind} `{EqDecision Param} : EqDecision (Operation Kind Param).
Proof. solve_decision. Defined.

(** Modelled from the spec: the error taxonomy of the imported passes. *)
Inductive CompileError (Op : Type) : Type :=
| UnknownResourceError (offending : Op)
| UnsupportedGateError (offending : Op)
| NonTerminatingRewriteError
| UnboundedLoopError.

Arguments UnknownResourceError {Op} offending.
Arguments UnsupportedGateError {Op} offending.
Arguments NonTerminatingRewriteError {Op}.
Arguments UnboundedLoopError {Op}.

(** Modelled from the spec: what a stage of the imported pipeline hands to
    its immediate caller, a value or one of the errors; [OutOfFuel] is the
    walk that has not finished within the steps it was given. *)
Inductive Outcome (Op A : Type) : Type :=
| Done (a : A)
| Failed (e : CompileError Op)
| OutOfFuel.

Arguments Done {Op A} a.
Arguments Failed {Op A} e.
Arguments OutOfFuel {Op A}.

Definition and_then {Op A B} (m : Outcome Op A) (f : A -> Outcome Op B) : Outcome Op B :=
  match m with
  | Done a => f a
  | Failed e => Failed e
  | OutOfFuel => OutOfFuel
  end.

Section Operations.
Context {Kind Param : Type}.
Abbreviation Op := (Operation Kind Param).

(** The qubits an operation touches. *)
Definition touched (op : Op) : list Qubit :=
  match op with
  | Gate _ qs _ => qs
  | Measure q _ => [q]
  | Barrier qs => qs
  end.

(** The classical bits an operation writes. *)
Definition bits_of (op : Op) : list ClassicalBit :=
  match op with
  | Measure _ c => [c]
  | _ => []
  end.

Definition touches (q : Qubit) (op : Op) : bool :=
  existsb (fun q' => bool_decide (q = q')) (touched op).

Definition qubit_disjoint (a b : Op) : bool :=
  forallb (fun q => negb (touches q b)) (touched a).
End Operations.

End IR.

(** ** The rewrite engine and its fixpoint wrapper *)
Module Engine.
Import IR.

Section Engine.
Context {Op : Type} `{EqDecision Op}.

(** Modelled from the spec: a RewriteRule of the imported rewrite engine,
    a pure function from the window of operations that starts at the current
    position to no match, or to the length of the matched window and the
    sequence that replaces it. *)
Definition RewriteRule : Type := list Op -> option (nat * list Op).

(** Modelled from the spec: rule dispatch of the imported engine; the rules
    are tried in the order of the ruleset and the first match wins. *)
Fixpoint first_match (ruleset : list RewriteRule) (todo : list Op)
  : option (nat * list Op) :=
  match ruleset with
  | [] => None
  | rule :: others =>
      match rule todo with
      | Some hit => Some hit
      | None => first_match others todo
      end
  end.

(** Modelled from the spec: [rewrite(circuit, ruleset)] of the imported
    engine (kirin's Walk): at each position the first matching rule's
    replacement is spliced in place of the matched window and scanning
    restarts at the start of the replacement; an operation no rule matches is
    kept.  [fuel] bounds the positions visited. *)
Fixpoint rewrite (fuel : nat) (ruleset : list RewriteRule) (todo : list Op)
  : Outcome Op (list Op) :=
  match fuel with
  | O => OutOfFuel
  | S fuel' =>
      match todo with
      | [] => Done []
      | op :: rest =>
          match first_match ruleset todo with
          | Some (window, replacement) =>
              rewrite fuel' ruleset (replacement ++ skipn window todo)
          | None => and_then (rewrite fuel' ruleset rest) (fun out => Done (op :: out))
          end
      end
  end.

(** Modelled from the spec: a rule of the imported decomposition ruleset, an
    entry of the rule table keyed by the gate at the current position: its
    window is that one operation. *)
Definition gate_rule (entry : Op -> option (list Op)) : RewriteRule :=
  fun todo =>
    match todo with
    | op :: _ =>
        match entry op with
        | Some replacement => Some (1%nat, replacement)
        | None => None
        end
    | [] => None
    end.

(** Modelled from the spec: the [fixpoint(circuit, ruleset)] wrapper of the
    imported engine: repeat a pass until a full pass produces no changes;
    more than [max_iter] passes fail with NonTerminatingRewriteError. *)
Fixpoint fixpoint (max_iter : nat) (pass : list Op -> Outcome Op (list Op))
  (circuit : list Op) : Outcome Op (list Op) :=
  match max_iter with
  | O => Failed NonTerminatingRewriteError
  | S k =>
      match pass circuit with
      | Done circuit' =>
          if decide (circuit' = circuit) then Done circuit
          else fixpoint k pass circuit'
      | Failed e => Failed e
      | OutOfFuel => OutOfFuel
      end
  end.

(** The first operation outside the native set, if any. *)
Definition first_non_native (native : Op -> bool) (circuit : list Op) : option Op :=
  List.find (fun op => negb (native op)) circuit.

(** Modelled from the spec: the native gate decomposition of the imported
    ruleset (RydbergGateSetRewriteRule), the fixpoint of [rewrite] under the
    rules of the decomposition table; an operation left outside the native
    set fails with UnsupportedGateError. *)
Definition decompose (fuel max_iter : nat) (table : list (Op -> option (list Op)))
  (native : Op -> bool) (circuit : list Op) : Outcome Op (list Op) :=
  and_then (fixpoint max_iter (rewrite fuel (map gate_rule table)) circuit)
    (fun circuit' =>
       match first_non_native native circuit' with
       | Some op => Failed (UnsupportedGateError op)
       | None => Done circuit'
       end).

(** Modelled from the spec: the loop-folding pass of the imported
    QASM2Fold, the fixpoint of its one-pass normalisation [fold_pass]
    (which fails with UnboundedLoopError where it finds no static bound). *)
Definition fold_fixpoint (max_iter : nat)
  (fold_pass : list Op -> Outcome Op (list Op)) (circuit : list Op)
  : Outcome Op (list Op) :=
  fixpoint max_iter fold_pass circuit.

(** No entry of the table matches any operation of the circuit. *)
Definition normal_form (table : list (Op -> option (list Op))) (circuit : list Op) : Prop :=
  Forall (fun op => first_match (map gate_rule table) [op] = None) circuit.
End Engine.

End Engine.

(** ** The parallelization scheduler *)
Module Scheduler.
Import IR.

Section Scheduler.
Context {Kind Param : Type}.
Abbreviation Op := (Operation Kind Param).

(** Which gate kinds are diagonal (phase-only): a domain fact. *)
Variable diagonal : Kind -> bool.

Definition diagonal_op (op : Op) : bool :=
  match op with
  | Gate k _ _ => diagonal k
  | _ => false
  end.

(** Modelled from the spec: the CommutationRelation of the imported
    scheduler, a pure predicate on two operations: qubit-disjoint, or both
    diagonal on overlapping qubits. *)
Definition commutes (a b : Op) : bool :=
  qubit_disjoint a b || (diagonal_op a && diagonal_op b).

(** Modelled from the spec: the test of the imported scheduler for two
    operations to share a Layer, qubit-disjoint or commuting. *)
Definition compatible (a b : Op) : bool :=
  qubit_disjoint a b || commutes a b.

Definition Layer : Type := list Op.

(** Modelled from the spec: in the imported scheduler an operation may join
    a Layer when it is compatible with every operation already placed
    there. *)
Definition fits (op : Op) (layer : Layer) : bool :=
  forallb (compatible op) layer.

(** Modelled from the spec: the greedy placement of the imported scheduler.
    The open Layers are scanned from the most recent backward, as long as
    the operation fits; it joins the earliest Layer reached.  [None]: it
    does not fit the most recent Layer. *)
Fixpoint join (op : Op) (frontier : list Layer) : option (list Layer) :=
  match frontier with
  | [] => None
  | layer :: earlier =>
      if fits op layer then
        match join op earlier with
        | Some earlier' => Some (layer :: earlier')
        | None => Some ((layer ++ [op]) :: earlier)
        end
      else None
  end.

(** Modelled from the spec: one step of the imported scheduler; the
    operation joins a Layer, or opens a new one after the frontier.  The
    frontier is kept most recent first. *)
Definition place (frontier : list Layer) (op : Op) : list Layer :=
  match join op frontier with
  | Some frontier' => frontier'
  | None => [op] :: frontier
  end.

(** Modelled from the spec: [schedule(circuit, barriers)] of the imported
    scheduler (UOpToParallel), a greedy single forward pass over the
    operations in program order; a Barrier is an operation on its qubit set
    that commutes with nothing it overlaps. *)
Definition schedule (circuit : list Op) : list Layer :=
  rev (fold_left place circuit []).

(** Modelled from the spec: the pass-through baseline of the imported
    scheduler, one operation per Layer in the original order. *)
Definition pass_through (circuit : list Op) : list Layer :=
  map (fun op => [op]) circuit.

(** Flattening a Layer sequence back to linear order. *)
Definition flatten (layers : list Layer) : list Op := concat layers.

(** The operations of a sequence that touch [q], in order. *)
Definition on_qubit (q : Qubit) (ops : list Op) : list Op :=
  List.filter (touches q) ops.

(** Every two operations of a Layer are qubit-disjoint or commuting. *)
Definition layer_ok (layer : Layer) : Prop :=
  ForallOrdPairs
    (fun a b => qubit_disjoint a b = true \/ commutes a b = true) layer.

(** The diagonal operations of a circuit that touch [q]. *)
Definition diagonal_on (q : Qubit) (circuit : list Op) : list Op :=
  List.filter (fun op => touches q op && diagonal_op op) circuit.

(** The operations of a sequence that touch [q] and are not diagonal: each
    of them conflicts with every other operation on [q]. *)
Definition conflicting_on (q : Qubit) (ops : list Op) : list Op :=
  List.filter (fun op => touches q op && negb (diagonal_op op)) ops.
End Scheduler.

End Scheduler.

(** ** Building a circuit *)
Module CircuitIR.
Import IR.

Section CircuitIR.
Context {Kind Param : Type}.
Abbreviation Op := (Operation Kind Param).

(** Modelled from the spec: the Circuit of the imported IR, the declared
    registers (name and size) and the operations in program order. *)
Record Circuit : Type := MkCircuit {
  qregs : list (string * nat);
  cregs : list (string * nat);
  ops : list Op
}.

(** Modelled from the spec: in the imported IR a qubit or bit [(r, i)] is
    declared when a register [r] of size above [i] is. *)
Definition declared (regs : list (string * nat)) (x : string * nat) : bool :=
  existsb (fun reg => bool_decide (fst reg = fst x) && Nat.ltb (snd x) (snd reg)) regs.

(** Every qubit and bit the operation references is declared. *)
Definition resources_declared (c : Circuit) (op : Op) : bool :=
  forallb (declared (qregs c)) (touched op)
  && forallb (declared (cregs c)) (bits_of op).

(** Modelled from the spec: the construction API of the imported IR,
    appending one operation in program order; an operation that references
    an undeclared qubit or bit fails with UnknownResourceError. *)
Definition append (c : Circuit) (op : Op) : Outcome Op Circuit :=
  if resources_declared c op
  then Done {| qregs := qregs c; cregs := cregs c; ops := ops c ++ [op] |}
  else Failed (UnknownResourceError op).

(** Modelled from the spec: the imported construction API applied to a
    program, operation by operation; the first failure ends it. *)
Fixpoint append_all (c : Circuit) (program : list Op) : Outcome Op Circuit :=
  match program with
  | [] => Done c
  | op :: rest => and_then (append c op) (fun c' => append_all c' rest)
  end.

(** Modelled from the spec: building a Circuit of the imported IR from its
    declarations and its program. *)
Definition build (qdecl cdecl : list (string * nat)) (program : list Op)
  : Outcome Op Circuit :=
  append_all {| qregs := qdecl; cregs := cdecl; ops := [] |} program.

(** Modelled from the spec: the pipeline of the imported passes, which
    builds the circuit and hands it to the passes (decomposition, folding,
    scheduling); [Output] is what the last pass yields. *)
Definition compile {Output : Type} (passes : Circuit -> Outcome Op Output)
  (qdecl cdecl : list (string * nat)) (program : list Op) : Outcome Op Output :=
  and_then (build qdecl cdecl program) passes.

(** What the caller can observe of a compile: the output, if any. *)
Definition observable_output {Output : Type} (r : Outcome Op Output) : option Output :=
  match r with
  | Done out => Some out
  | _ => None
  end.

(** The operation writes a classical bit that is not declared. *)
Definition references_undeclared_bit (cdecl : list (string * nat)) (op : Op) : bool :=
  negb (forallb (declared cdecl) (bits_of op)).
End CircuitIR.

Arguments Circuit Kind Param : clear implicits.

End CircuitIR.

(** ** Concrete circuits *)
Module Samples.
Import IR.

(** Gate kinds by name, parameters as the angles of the notebook. *)
Abbreviation SOp := (Operation string QASM.Angle).

Definition q0 : Qubit := ("q"%string, 0%nat).
Definition q1 : Qubit := ("q"%string, 1%nat).

(** The phase rotation and the controlled-Z gate are diagonal. *)
Definition diagonal_kind (kind : string) : bool :=
  String.eqb kind "rz" || String.eqb kind "cz".

(** No gate kind counts as diagonal: the qubit-disjointness rule alone. *)
Definition no_diagonal (kind : string) : bool := false.

(** [x q[1]; cz q[0],q[1]; rz(pi/4) q[0]] *)
Definition phase_after_cz : list SOp :=
  [Gate "x"%string [q1] [];
   Gate "cz"%string [q0; q1] [];
   Gate "rz"%string [q0] [QASM.PiFrac 1 4]].

(** A four-qubit and a four-bit register, and a measurement into bit 5. *)
Definition four_qubits : list (string * nat) := [("q"%string, 4%nat)].
Definition four_bits : list (string * nat) := [("c"%string, 4%nat)].

Definition measure_into_bit_5 : list SOp :=
  [Gate "h"%string [q0] [];
   Measure q0 ("c"%string, 5%nat);
   Measure q1 ("c"%string, 1%nat)].

(** A decomposition table: [cx] into Hadamards around [cz], [h] and [x]
    into the single-qubit gate [u]. *)
Definition entry_cx (op : SOp) : option (list SOp) :=
  match op with
  | Gate kind [c; t] [] =>
      if String.eqb kind "cx"
      then Some [Gate "h"%string [t] []; Gate "cz"%string [c; t] []; Gate "h"%string [t] []]
      else None
  | _ => None
  end.

Definition entry_h (op : SOp) : option (list SOp) :=
  match op with
  | Gate kind [q] [] =>
      if String.eqb kind "h"
      then Some [Gate "u"%string [q] [QASM.PiFrac 1 2; QASM.PiFrac 0 1; QASM.PiFrac 1 1]]
      else None
  | _ => None
  end.

Definition entry_x (op : SOp) : option (list SOp) :=
  match op with
  | Gate kind [q] [] =>
      if String.eqb kind "x"
      then Some [Gate "u"%string [q] [QASM.PiFrac 1 1; QASM.PiFrac 0 1; QASM.PiFrac 1 1]]
      else None
  | _ => None
  end.

Definition sample_table : list (SOp -> option (list SOp)) := [entry_cx; entry_h; entry_x].

Definition native_kind (op : SOp) : bool :=
  match op with
  | Gate kind _ _ => String.eqb kind "u" || String.eqb kind "cz"
  | _ => true
  end.

(** Two rules with windows: [h; h] on one qubit cancels, and [x] becomes
    [h]. *)
Definition cancel_hh : Engine.RewriteRule (Op := SOp) :=
  fun todo =>
    match todo with
    | Gate k1 [a] [] :: Gate k2 [b] [] :: _ =>
        if String.eqb k1 "h" && String.eqb k2 "h" && bool_decide (a = b)
        then Some (2%nat, [])
        else None
    | _ => None
    end.

Definition x_to_h : Engine.RewriteRule (Op := SOp) :=
  Engine.gate_rule (fun op =>
    match op with
    | Gate kind [q] [] => if String.eqb kind "x" then Some [Gate "h"%string [q] []] else None
    | _ => None
    end).

Definition u_gate (q : Qubit) : SOp :=
  Gate "u"%string [q] [QASM.PiFrac 1 2; QASM.PiFrac 0 1; QASM.PiFrac 1 1].

End Samples.

(** ** The measurement cell of the notebook *)
Module Notebook.

(** Python's [str] on an [int]. *)
Definition str (d : Z) : string := NilZero.string_of_int (Z.to_int d).

(** [bit_str = ""; for i in range(4): bit_str += str(random.randint(0,1))];
    [randint i] is what the call of iteration [i] returns. *)
Definition random_bit_str (randint : nat -> Z) : string :=
  fold_left (fun bit_str i => (bit_str ++ str (randint i))%string) (seq 0 4) ""%string.

(** [kernel = qft(4, bit_str)] *)
Definition kernel (randint : nat -> Z) : QASM.Kernel :=
  QASM.qft_default 4 (random_bit_str randint).

(** A [collections.Counter] over strings: the keys in the order of their
    first insertion, each with its count. *)
Definition Counter : Type := list (string * nat).

(** [c[key] += 1] *)
Fixpoint counter_incr (key : string) (c : Counter) : Counter :=
  match c with
  | [] => [(key, 1%nat)]
  | (k, v) :: rest =>
      if String.eqb k key then (k, S v) :: rest
      else (k, v) :: counter_incr key rest
  end.

(** [Counter(items)] *)
Definition counter_of (items : list string) : Counter :=
  fold_left (fun c key => counter_incr key c) items [].

(** [c[key]]: a key that is missing counts 0. *)
Fixpoint counter_get (key : string) (c : Counter) : nat :=
  match c with
  | [] => 0%nat
  | (k, v) :: rest => if String.eqb k key then v else counter_get key rest
  end.

Definition keys (c : Counter) : list string := map fst c.

Definition total (c : Counter) : nat := list_sum (map snd c).

Section to_bitstrings.
(** The values a shot holds, and Python's [str] on them. *)
Variable Bit : Type.
Variable str_bit : Bit -> string.

(** ["".join(map(str, result))] *)
Definition join_bits (result : list Bit) : string :=
  String.concat "" (map str_bit result).

(** [to_bitstrings(results)] *)
Definition to_bitstrings (results : list (list Bit)) : Counter :=
  counter_of (map join_bits results).

(** [for key, value in counts.items(): print(key, value)], as the lines
    printed. *)
Definition report (counts : Counter) : list string :=
  map (fun kv => (fst kv ++ " " ++ str (Z.of_nat (snd kv)))%string) counts.
End to_bitstrings.

(** The distinct items of a list, in the order of their first occurrence. *)
Fixpoint first_occurrences (items : list string) : list string :=
  match items with
  | [] => []
  | x :: rest => x :: List.filter (fun y => negb (String.eqb x y)) (first_occurrences rest)
  end.

(** How often [key] occurs among the items. *)
Definition occurrences (key : string) (items : list string) : nat :=
  length (List.filter (String.eqb key) items).

End Notebook.


(** * Properties *)

(** ** The kernel built by [qft] *)
Module QASMFacts.
Import QASM.

(** The statements of [qft_program] for two qubits and the input ["10"]. *)
Example qft_program_2_10 :
  qft_program 2 "10"
  = [QRegDecl 2; CRegDecl 2;
     X 0;
     H 0; RZ 1 (PiFrac 1 8); CX 0 1; RZ 1 (PiFrac 1 8); CX 0 1; RZ 0 (PiFrac 7 16);
     H 1; RZ 1 (PiFrac 3 8);
     Measure 0 0; Measure 1 1].
Proof. vm_compute. reflexivity. Qed.

Lemma range_In (lo hi x : Z) : In x (range lo hi) <-> lo <= x < hi.
Proof.
  unfold range. rewrite in_map_iff. split.
  - intros (k & <- & Hk). apply in_seq in Hk. lia.
  - intros Hx. exists (Z.to_nat (x - lo)). split; [lia |].
    apply in_seq. lia.
Qed.

Lemma range_length (lo hi : Z) : length (range lo hi) = Z.to_nat (hi - lo).
Proof. unfold range. now rewrite length_map, length_seq. Qed.

Lemma range_cons (lo hi : Z) : lo < hi -> range lo hi = lo :: range (lo + 1) hi.
Proof.
  intros Hlt. unfold range.
  replace (Z.to_nat (hi - lo)) with (S (Z.to_nat (hi - (lo + 1)))) by lia.
  cbn [seq map]. f_equal; [lia |].
  rewrite <- seq_shift, map_map. apply map_ext. intros k. lia.
Qed.

Lemma range_sorted (lo hi : Z) : StronglySorted Z.lt (range lo hi).
Proof.
  unfold range. generalize (Z.to_nat (hi - lo)) as m. intros m.
  generalize 0%nat as s. induction m as [| m IH]; intros s; cbn [seq map].
  - constructor.
  - constructor; [apply IH |].
    apply List.Forall_forall. intros y Hy. apply in_map_iff in Hy.
    destruct Hy as (k & <- & Hk). apply in_seq in Hk. lia.
Qed.

Lemma filter_sorted (p : Z -> bool) (l : list Z) :
  StronglySorted Z.lt l -> StronglySorted Z.lt (List.filter p l).
Proof.
  induction 1 as [| a l Hs IH Hall]; cbn [List.filter]; [constructor |].
  destruct (p a); [| exact IH].
  constructor; [exact IH |].
  apply List.Forall_forall. intros y Hy. apply filter_In in Hy.
  rewrite List.Forall_forall in Hall. apply Hall, Hy.
Qed.

Lemma flat_map_if {A B} (p : A -> bool) (f : A -> B) (l : list A) :
  flat_map (fun i => if p i then [f i] else []) l = map f (List.filter p l).
Proof.
  induction l as [| a l IH]; [reflexivity |].
  cbn [flat_map List.filter]. destruct (p a); cbn; now rewrite IH.
Qed.

(** The initialisation loop applies [X] at the positions holding ['1']. *)
Lemma init_loop_ones (bit_str : string) : init_loop bit_str = map X (ones bit_str).
Proof. unfold init_loop, ones. apply flat_map_if. Qed.

Lemma ones_In (bit_str : string) (i : Z) :
  In i (ones bit_str) <-> 0 <= i < len bit_str /\ is_one bit_str i = true.
Proof. unfold ones. rewrite filter_In, range_In. tauto. Qed.

Lemma ones_sorted (bit_str : string) : StronglySorted Z.lt (ones bit_str).
Proof. apply filter_sorted, range_sorted. Qed.

Lemma qft_step_gates (n i : Z) : Forall (fun s => is_transform_gate s = true) (qft_step n i).
Proof.
  unfold qft_step, dyadic_roatation_layer, cnot_fanout_layer.
  repeat (apply List.Forall_app; split); try (repeat constructor);
    apply List.Forall_forall; intros s Hs; apply in_map_iff in Hs;
    destruct Hs as (j & <- & _); reflexivity.
Qed.

Lemma main_loop_gates (n : Z) : Forall (fun s => is_transform_gate s = true) (main_loop n).
Proof.
  unfold main_loop. induction (range 0 n) as [| i l IH]; cbn [flat_map].
  - constructor.
  - apply List.Forall_app. split; [apply qft_step_gates | exact IH].
Qed.

Lemma main_loop_head (n : Z) : 1 <= n -> exists rest, main_loop n = H 0 :: rest.
Proof.
  intros Hn. unfold main_loop. rewrite range_cons by lia.
  cbn [flat_map]. unfold qft_step at 1. cbn [app]. eauto.
Qed.

Lemma filter_all {A} (p : A -> bool) (l : list A) :
  Forall (fun a => p a = true) l -> List.filter p l = l.
Proof.
  induction 1 as [| a l Ha _ IH]; [reflexivity |].
  cbn [List.filter]. now rewrite Ha, IH.
Qed.

Lemma flat_map_none {A B} (f : A -> list B) (l : list A) :
  Forall (fun a => f a = []) l -> flat_map f l = [].
Proof.
  induction 1 as [| a l Ha _ IH]; [reflexivity |].
  cbn [flat_map]. now rewrite Ha, IH.
Qed.

Lemma not_decl_ops (l : list Stmt) :
  Forall (fun s => is_decl s = false) l ->
  operations l = l /\ qregs l = [] /\ cregs l = [].
Proof.
  intros Hl. unfold operations, qregs, cregs. repeat split.
  - apply filter_all. eapply List.Forall_impl; [| exact Hl].
    intros s Hs. cbn beta. now rewrite Hs.
  - apply flat_map_none. eapply List.Forall_impl; [| exact Hl].
    intros s Hs. now destruct s.
  - apply flat_map_none. eapply List.Forall_impl; [| exact Hl].
    intros s Hs. now destruct s.
Qed.

Lemma loops_not_decl (n : Z) (bit_str : string) :
  Forall (fun s => is_decl s = false) (init_loop bit_str ++ main_loop n ++ measure_loop n).
Proof.
  repeat (apply List.Forall_app; split).
  - rewrite init_loop_ones. apply List.Forall_forall. intros s Hs.
    apply in_map_iff in Hs. now destruct Hs as (i & <- & _).
  - eapply List.Forall_impl; [| apply main_loop_gates]. intros s Hs. now destruct s.
  - apply List.Forall_forall. intros s Hs. apply in_map_iff in Hs.
    now destruct Hs as (i & <- & _).
Qed.

(** C9. For every [n >= 1], every [bit_str] no longer than [n] and every
    [parallelize], the kernel built by [qft(n, bit_str, parallelize)] declares
    exactly one quantum register of size [n] and one classical register of
    size [n]; its operations begin with an [X] gate on [qreg[i]] for exactly
    the positions [i] with [bit_str[i] == '1'], in increasing order and all
    within the register, followed by the Hadamard gate on [qreg[0]] and the
    other gates of the transform; and its final [n] operations are the
    measurements of [qreg[i]] into [creg[i]] for [i = 0 .. n-1] in
    increasing order. *)
Theorem qft_kernel_shape (n : Z) (bit_str : string) (parallelize : bool) :
  1 <= n -> len bit_str <= n ->
  let body := source (qft n bit_str parallelize) in
  let measurements := map (fun i => Measure i i) (range 0 n) in
  qregs body = [n] /\ cregs body = [n] /\
  (forall i, In i (ones bit_str) <-> 0 <= i < len bit_str /\ is_one bit_str i = true) /\
  Forall (fun i => 0 <= i < n) (ones bit_str) /\
  StronglySorted Z.lt (ones bit_str) /\
  StronglySorted Z.lt (range 0 n) /\
  (forall i, In i (range 0 n) <-> 0 <= i < n) /\
  length measurements = Z.to_nat n /\
  exists transform,
    operations body = map X (ones bit_str) ++ H 0 :: transform ++ measurements /\
    Forall (fun s => is_transform_gate s = true) transform.
Proof.
  intros Hn Hlen body measurements.
  destruct (not_decl_ops _ (loops_not_decl n bit_str)) as (Hops & Hq & Hc).
  destruct (main_loop_head n Hn) as (rest & Hrest).
  assert (Hbody : body = [QRegDecl n; CRegDecl n]
                         ++ (init_loop bit_str ++ main_loop n ++ measure_loop n))
    by reflexivity.
  split; [| split; [| split; [| split; [| split; [| split; [| split; [| split]]]]]]].
  - rewrite Hbody. unfold qregs in *. rewrite flat_map_app, Hq. reflexivity.
  - rewrite Hbody. unfold cregs in *. rewrite flat_map_app, Hc. reflexivity.
  - apply ones_In.
  - apply List.Forall_forall. intros i Hi. apply ones_In in Hi. lia.
  - apply ones_sorted.
  - apply range_sorted.
  - intros i. apply range_In.
  - unfold measurements. rewrite length_map, range_length. f_equal. lia.
  - exists rest. split.
    + rewrite Hbody. unfold operations in *. rewrite List.filter_app, Hops.
      cbn [List.filter is_decl negb app].
      now rewrite init_loop_ones, Hrest.
    + pose proof (main_loop_gates n) as Hg. rewrite Hrest in Hg.
      now inversion Hg.
Qed.

Lemma qft_kernel_shape_witness :
  let body := source (qft 4 "0101" true) in
  let measurements := map (fun i => Measure i i) (range 0 4) in
  qregs body = [4] /\ cregs body = [4] /\
  (forall i, In i (ones "0101") <-> 0 <= i < len "0101" /\ is_one "0101" i = true) /\
  Forall (fun i => 0 <= i < 4) (ones "0101") /\
  StronglySorted Z.lt (ones "0101") /\
  StronglySorted Z.lt (range 0 4) /\
  (forall i, In i (range 0 4) <-> 0 <= i < 4) /\
  length measurements = Z.to_nat 4 /\
  exists transform,
    operations body = map X (ones "0101") ++ H 0 :: transform ++ measurements /\
    Forall (fun s => is_transform_gate s = true) transform.
Proof.
  apply (qft_kernel_shape 4 "0101" true).
  - lia.
  - vm_compute. discriminate.
Defined.

(** C10. The initialisation loop of [qft(n, bit_str)] reads [qreg[i]] for
    every position [i < len(bit_str)] with [bit_str[i] == '1']; when
    [len(bit_str) <= n] every such index lies within the declared [n]-qubit
    register, and for some input with [len(bit_str) > n] and a ['1'] at a
    position at or beyond [n] the builder references a qubit index outside
    the declared register. *)
Theorem init_loop_qubit_bounds :
  (forall n bit_str i,
      In (X i) (qft_program n bit_str)
      <-> 0 <= i < len bit_str /\ is_one bit_str i = true) /\
  (forall n bit_str,
      len bit_str <= n ->
      forall s q, In s (init_loop bit_str) -> In q (qubit_refs s) -> 0 <= q < n) /\
  (exists n bit_str q,
      n < len bit_str /\ n <= q /\ is_one bit_str q = true /\
      qregs (qft_program n bit_str) = [n] /\
      In (X q) (qft_program n bit_str)).
Proof.
  assert (Hinit : forall bit_str i,
             In (X i) (init_loop bit_str)
             <-> 0 <= i < len bit_str /\ is_one bit_str i = true).
  { intros bit_str i. rewrite init_loop_ones, <- ones_In, in_map_iff. split.
    - now intros (j & [= ->] & Hj).
    - intros Hi. eauto. }
  split; [| split].
  - intros n bit_str i. rewrite <- Hinit. unfold qft_program.
    rewrite !in_app_iff. split; [| tauto].
    intros [Hd | [Hi | [Hm | Hm]]]; [| exact Hi | |].
    + cbn in Hd. destruct Hd as [Hd | [Hd | []]]; discriminate Hd.
    + pose proof (main_loop_gates n) as Hg. rewrite List.Forall_forall in Hg.
      apply Hg in Hm. discriminate Hm.
    + unfold measure_loop in Hm. apply in_map_iff in Hm.
      destruct Hm as (j & Hj & _). discriminate Hj.
  - intros n bit_str Hlen s q Hs Hq.
    rewrite init_loop_ones in Hs. apply in_map_iff in Hs.
    destruct Hs as (i & <- & Hi). apply ones_In in Hi.
    cbn in Hq. destruct Hq as [<- | []]. lia.
  - exists 1, "01"%string, 1. vm_compute. repeat split; try discriminate.
    right. right. now left.
Qed.

Lemma init_loop_qubit_bounds_witness :
  Forall (fun s => Forall (fun q => 0 <= q < 4) (qubit_refs s)) (init_loop "0101").
Proof.
  apply List.Forall_forall; intros s Hs. apply List.Forall_forall; intros q Hq.
  destruct init_loop_qubit_bounds as (_ & Hin & _).
  apply (Hin 4 "0101"%string) with (s := s); [vm_compute; discriminate | exact Hs | exact Hq].
Defined.

End QASMFacts.

(** ** The compiler pass [run_pass] *)
Module PipelineFacts.
Import QASM Pipeline.

Section RunPassFacts.
Variables (Code Exn Val : Type).
Variable base_run_pass : option (bool -> bool -> Pass Code Exn Val).
Variables native_rewrite agg_fold parallelize_pass : Pass Code Exn Val.

Abbreviation run kernel kw s :=
  (run_pass Code Exn Val base_run_pass native_rewrite agg_fold parallelize_pass
     kernel kw (start s)).
Abbreviation run_baseline kernel kw s :=
  (baseline Code Exn Val base_run_pass native_rewrite kernel kw (start s)).

Ltac run_cases :=
  unfold run_pass, baseline, schedule_of_calls, assert_not_None, bind, call, ret,
    raise, returned, start;
  cbn [event_target store trace fst snd app];
  destruct base_run_pass as [base |]; cbn;
  [ destruct (base _ _ _ _) as [[?|?] ?]; cbn;
    [ | destruct (native_rewrite _ _) as [[?|?] ?]; cbn;
        [ | destruct (flag false _); cbn;
            [ destruct (agg_fold _ _) as [[?|?] ?]; cbn;
              [ | destruct (parallelize_pass _ _) as [[?|?] ?]; cbn ]
            | ] ] ]
  | ].

(** In every run the calls made are an initial part of the call schedule. *)
Lemma run_pass_calls_prefix kernel kw s :
  trace (snd (run kernel kw s)) `prefix_of` schedule_of_calls kernel kw.
Proof.
  run_cases;
    solve [ apply prefix_nil | reflexivity
          | eexists; reflexivity
          | apply prefix_cons, prefix_nil
          | do 2 apply prefix_cons; apply prefix_nil
          | do 3 apply prefix_cons; apply prefix_nil ].
Qed.

(** A run that returns has made every call of the schedule. *)
Lemma run_pass_calls_returned kernel kw s :
  returned (run kernel kw s) = true ->
  trace (snd (run kernel kw s)) = schedule_of_calls kernel kw.
Proof. run_cases; intros Hr; try discriminate Hr; reflexivity. Qed.

Lemma schedule_of_calls_parallelize kernel kw :
  existsb is_parallelize (schedule_of_calls kernel kw) = flag false (kw_parallelize kw).
Proof. unfold schedule_of_calls. now destruct (flag false (kw_parallelize kw)). Qed.

Lemma schedule_of_calls_fold kernel kw :
  existsb is_fold_fixpoint (schedule_of_calls kernel kw) = flag false (kw_parallelize kw).
Proof. unfold schedule_of_calls. now destruct (flag false (kw_parallelize kw)). Qed.

Lemma existsb_prefix {A} (p : A -> bool) (l k : list A) :
  l `prefix_of` k -> existsb p l = true -> existsb p k = true.
Proof. intros [m ->] Hl. rewrite existsb_app, Hl. reflexivity. Qed.

(** C1. For every kernel and flag assignment, [run_pass] calls the
    parallelization scheduler only if [parallelize] is true, and in every run
    that returns it calls it if and only if [parallelize] is true; when
    [parallelize] is false the run is the baseline, in which neither the
    loop-folding fixpoint nor the scheduler is called; and when it is true
    the calls are made strictly in the order decomposition, loop folding,
    scheduling (after the inherited pass). *)
Theorem run_pass_parallelize_gate kernel kw s :
  let out := run kernel kw s in
  let calls := trace (snd out) in
  let parallelize := flag false (kw_parallelize kw) in
  (existsb is_parallelize calls = true -> parallelize = true) /\
  (returned out = true -> (existsb is_parallelize calls = true <-> parallelize = true)) /\
  (parallelize = false ->
     out = run_baseline kernel kw s /\
     existsb is_fold_fixpoint calls = false /\
     existsb is_parallelize calls = false) /\
  (parallelize = true ->
     calls `prefix_of`
       [EvBase (TMethod kernel) (flag true (kw_fold kw)) (flag true (kw_typeinfer kw));
        EvNativeRewrite (TCode kernel);
        EvFoldFixpoint (TMethod kernel);
        EvParallelize (TMethod kernel)] /\
     (returned out = true ->
        calls =
          [EvBase (TMethod kernel) (flag true (kw_fold kw)) (flag true (kw_typeinfer kw));
           EvNativeRewrite (TCode kernel);
           EvFoldFixpoint (TMethod kernel);
           EvParallelize (TMethod kernel)])).
Proof.
  intros out calls parallelize.
  pose proof (run_pass_calls_prefix kernel kw s) as Hpre.
  pose proof (run_pass_calls_returned kernel kw s) as Hret.
  pose proof (schedule_of_calls_parallelize kernel kw) as Hpar.
  pose proof (schedule_of_calls_fold kernel kw) as Hfold.
  fold out in Hpre, Hret. fold calls in Hpre, Hret. fold parallelize in Hpar, Hfold.
  assert (Honly : existsb is_parallelize calls = true -> parallelize = true).
  { intros Hc. rewrite <- Hpar. eapply existsb_prefix; eassumption. }
  split; [exact Honly | split; [| split]].
  - intros Hr. split; [exact Honly |]. intros Hp.
    rewrite (Hret Hr), Hpar. exact Hp.
  - intros Hp. split; [| split].
    + subst out parallelize. revert Hp. clear. run_cases; intros Hp;
        solve [reflexivity | discriminate Hp].
    + destruct (existsb is_fold_fixpoint calls) eqn:Hc; [| reflexivity].
      rewrite <- Hp, <- Hfold. symmetry. eapply existsb_prefix; eassumption.
    + destruct (existsb is_parallelize calls) eqn:Hc; [| reflexivity].
      rewrite <- Hp. symmetry. now apply Honly.
  - intros Hp. unfold schedule_of_calls in Hpre, Hret.
    fold parallelize in Hpre, Hret. rewrite Hp in Hpre, Hret. cbn [app] in Hpre, Hret.
    split; assumption.
Qed.

(** Whatever the outcome, the store after a run is the store its calls have
    left, one after the other. *)
Lemma run_pass_store_effects kernel kw s :
  store (snd (run kernel kw s))
  = effects base_run_pass native_rewrite agg_fold parallelize_pass
      (trace (snd (run kernel kw s))) s.
Proof.
  unfold run_pass, assert_not_None, bind, call, ret, raise, start.
  cbn [event_target store trace fst snd app].
  destruct base_run_pass as [base |]; cbn [fst snd store trace app]; [| reflexivity].
  destruct (base _ _ _ _) as [[e1 | v1] s1] eqn:E1; cbn [fst snd store trace app].
  { unfold effects, effect, pass_of. cbn [fold_left event_target]. now rewrite E1. }
  destruct (native_rewrite _ _) as [[e2 | v2] s2] eqn:E2; cbn [fst snd store trace app].
  { unfold effects, effect, pass_of. cbn [fold_left event_target].
    rewrite E1. cbn [snd]. now rewrite E2. }
  destruct (flag false (kw_parallelize kw)); cbn [fst snd store trace app].
  2:{ unfold effects, effect, pass_of. cbn [fold_left event_target].
      rewrite E1. cbn [snd]. now rewrite E2. }
  destruct (agg_fold _ _) as [[e3 | v3] s3] eqn:E3; cbn [fst snd store trace app].
  { unfold effects, effect, pass_of. cbn [fold_left event_target].
    rewrite E1. cbn [snd]. rewrite E2. cbn [snd]. now rewrite E3. }
  destruct (parallelize_pass _ _) as [[e4 | v4] s4] eqn:E4; cbn [fst snd store trace app];
    unfold effects, effect, pass_of; cbn [fold_left event_target];
    rewrite E1; cbn [snd]; rewrite E2; cbn [snd]; rewrite E3; cbn [snd]; now rewrite E4.
Qed.

(** The decomposition is never the first call: the inherited pass, with the
    caller's [fold] and [typeinfer], has returned before it. *)
Lemma run_pass_native_after_base kernel kw s :
  existsb is_native_rewrite (trace (snd (run kernel kw s))) = true ->
  exists base v rest,
    base_run_pass = Some base /\
    fst (base (flag true (kw_fold kw)) (flag true (kw_typeinfer kw)) (TMethod kernel) s)
    = inr v /\
    trace (snd (run kernel kw s))
    = EvBase (TMethod kernel) (flag true (kw_fold kw)) (flag true (kw_typeinfer kw))
        :: EvNativeRewrite (TCode kernel) :: rest.
Proof.
  unfold run_pass, assert_not_None, bind, call, ret, raise, start.
  cbn [event_target store trace fst snd app].
  destruct base_run_pass as [base |]; cbn [store trace existsb]; [| discriminate].
  destruct (base _ _ _ _) as [[e1 | v1] s1] eqn:E1; cbn [store trace existsb app];
    [cbn; discriminate |].
  intros _. exists base, v1. rewrite E1.
  destruct (native_rewrite _ _) as [[e2 | v2] s2]; cbn [store trace app];
    [eexists; repeat split; reflexivity |].
  destruct (flag false (kw_parallelize kw)); cbn [store trace app];
    [| eexists; repeat split; reflexivity].
  destruct (agg_fold _ _) as [[e3 | v3] s3]; cbn [store trace app];
    [eexists; repeat split; reflexivity |].
  destruct (parallelize_pass _ _) as [[e4 | v4] s4]; cbn [store trace app];
    eexists; repeat split; reflexivity.
Qed.



End RunPassFacts.

Lemma run_pass_parallelize_gate_witness :
  trace (snd (quiet_run qft_ref (Kwargs None None (Some true)) qft_store))
  = [EvBase (TMethod qft_ref) true true; EvNativeRewrite (TCode qft_ref);
     EvFoldFixpoint (TMethod qft_ref); EvParallelize (TMethod qft_ref)].
Proof.
  destruct (run_pass_parallelize_gate (list Stmt) unit unit
              (Some (fun _ _ => quiet_pass)) quiet_pass quiet_pass quiet_pass
              qft_ref (Kwargs None None (Some true)) qft_store) as (_ & _ & _ & Hpar).
  apply Hpar; reflexivity.
Defined.

(** The calls behind [qft(4, "0101")] and [qft(4, "0101", parallelize=False)]. *)
Example qft_calls :
  trace (snd (decorate (Some (fun _ _ => quiet_pass)) quiet_pass quiet_pass quiet_pass
                qft_ref (qft_default 4 "0101")))
  = [EvBase (TMethod qft_ref) true true; EvNativeRewrite (TCode qft_ref);
     EvFoldFixpoint (TMethod qft_ref); EvParallelize (TMethod qft_ref)]
  /\ trace (snd (decorate (Some (fun _ _ => quiet_pass)) quiet_pass quiet_pass quiet_pass
                   qft_ref (qft 4 "0101" false)))
     = [EvBase (TMethod qft_ref) true true; EvNativeRewrite (TCode qft_ref)].
Proof. split; reflexivity. Qed.

(** What a pass writes is seen by the caller at the kernel it passed in,
    while [run_pass] itself returns [None]. *)
Example run_pass_updates_kernel :
  let out := run_pass (list Stmt) unit unit (Some (fun _ _ => quiet_pass))
               (overwrite_pass [H 0]) quiet_pass quiet_pass qft_ref
               (Kwargs None None None) (start qft_store) in
  fst out = inr tt /\ store (snd out) !! qft_ref = Some [H 0].
Proof. split; reflexivity. Qed.

Lemma checking_pass_validates (well_typed : list Stmt -> bool) :
  validates_types well_typed (checking_pass well_typed).
Proof.
  intros fold t s v s' c Hb Hc. unfold checking_pass in Hb.
  destruct (s !! target_object t) as [c0 |] eqn:Hl.
  - destruct (well_typed c0) eqn:Hw; [| discriminate Hb].
    injection Hb as _ <-. congruence.
  - injection Hb as _ <-. congruence.
Qed.


(** With [typeinfer] true an ill-typed kernel stops the run at the inherited
    pass: the decomposition is not called. *)
Example ill_typed_kernel_not_decomposed :
  let out := run_pass (list Stmt) string unit (Some (checking_pass angles_defined))
               skip_pass skip_pass skip_pass qft_ref (Kwargs None None (Some true))
               (start {[ qft_ref := [RZ 0 (PiFrac 1 0)] ]}) in
  fst out = inl (PassError "TypeError"%string)
  /\ trace (snd out) = [EvBase (TMethod qft_ref) true true].
Proof. split; vm_compute; reflexivity. Qed.

(** The passes of one run are handed the same kernel object. *)
Lemma run_pass_shares_kernel :
  ~ (forall (Code Exn Val : Type) base_run_pass native_rewrite agg_fold parallelize_pass
            kernel kw s,
        no_aliasing
          (trace (snd (run_pass Code Exn Val base_run_pass native_rewrite agg_fold
                         parallelize_pass kernel kw (start s))))).
Proof.
  intros Hclaim.
  specialize (Hclaim (list Stmt) unit unit (Some (fun _ _ => quiet_pass))
                quiet_pass quiet_pass quiet_pass qft_ref
                (Kwargs None None (Some true)) qft_store).
  unfold no_aliasing in Hclaim. cbn in Hclaim.
  apply NoDup_cons_1_1 in Hclaim. apply Hclaim. set_solver.
Qed.



End PipelineFacts.

(** ** The fixpoint passes *)
Module EngineFacts.
Import IR Engine.

Section EngineFacts.
Context {Op : Type} `{EqDecision Op}.
Implicit Types (circuit : list Op).

(** What [fixpoint] returns is left unchanged by one more pass. *)
Lemma fixpoint_fixed max_iter (pass : list Op -> Outcome Op (list Op)) circuit circuit' :
  fixpoint max_iter pass circuit = Done circuit' -> pass circuit' = Done circuit'.
Proof.
  revert circuit. induction max_iter as [| k IH]; intros circuit Hfix; [discriminate Hfix |].
  cbn [fixpoint] in Hfix. destruct (pass circuit) as [c1 | e |] eqn:Hpass; try discriminate Hfix.
  destruct (decide (c1 = circuit)) as [-> | Hne].
  - injection Hfix as <-. exact Hpass.
  - eapply IH, Hfix.
Qed.

Lemma fixpoint_again max_iter (pass : list Op -> Outcome Op (list Op)) circuit circuit' :
  fixpoint max_iter pass circuit = Done circuit' ->
  fixpoint max_iter pass circuit' = Done circuit'.
Proof.
  intros Hfix. pose proof (fixpoint_fixed _ _ _ _ Hfix) as Hpass.
  destruct max_iter as [| k]; [discriminate Hfix |].
  cbn [fixpoint]. rewrite Hpass. now rewrite decide_True.
Qed.

Lemma fixpoint_twice max_iter (pass : list Op -> Outcome Op (list Op)) circuit :
  and_then (fixpoint max_iter pass circuit) (fixpoint max_iter pass)
  = fixpoint max_iter pass circuit.
Proof.
  destruct (fixpoint max_iter pass circuit) as [c' | e |] eqn:Hfix; cbn [and_then];
    [| reflexivity | reflexivity].
  eapply fixpoint_again, Hfix.
Qed.

(** The rules of a decomposition table look at the current operation only. *)
Lemma first_match_head (table : list (Op -> option (list Op))) op rest :
  first_match (map gate_rule table) (op :: rest)
  = first_match (map gate_rule table) [op].
Proof.
  induction table as [| entry table IH]; [reflexivity |].
  cbn [map first_match gate_rule]. destruct (entry op); [reflexivity | exact IH].
Qed.

(** One [rewrite] walk under a decomposition table leaves only operations
    that no entry matches, and it visits more positions than it returns
    operations. *)
Lemma rewrite_done fuel (table : list (Op -> option (list Op))) todo out :
  rewrite fuel (map gate_rule table) todo = Done out ->
  normal_form table out /\ (length out < fuel)%nat.
Proof.
  revert todo out. induction fuel as [| fuel IH]; intros todo out Hrw; [discriminate Hrw |].
  cbn [rewrite] in Hrw. destruct todo as [| op rest].
  - injection Hrw as <-. split; [constructor | cbn; lia].
  - destruct (first_match (map gate_rule table) (op :: rest)) as [[window replacement] |] eqn:Hm.
    + destruct (IH _ _ Hrw) as [Hn Hl]. split; [exact Hn | lia].
    + destruct (rewrite fuel (map gate_rule table) rest) as [out' | e |] eqn:Hrest;
        try discriminate Hrw.
      cbn [and_then] in Hrw. injection Hrw as <-.
      destruct (IH _ _ Hrest) as [Hn Hl]. split; [| cbn; lia].
      constructor; [| exact Hn]. now rewrite <- (first_match_head table op rest).
Qed.

Lemma rewrite_normal fuel (table : list (Op -> option (list Op))) circuit :
  normal_form table circuit -> (length circuit < fuel)%nat ->
  rewrite fuel (map gate_rule table) circuit = Done circuit.
Proof.
  revert circuit. induction fuel as [| fuel IH]; intros circuit Hn Hl; [lia |].
  cbn [rewrite]. destruct circuit as [| op rest]; [reflexivity |].
  inversion Hn as [| ? ? Hop Hrest]; subst. rewrite first_match_head, Hop.
  rewrite IH; [reflexivity | exact Hrest | cbn in Hl; lia].
Qed.

Lemma rewrite_twice fuel (table : list (Op -> option (list Op))) circuit :
  and_then (rewrite fuel (map gate_rule table) circuit) (rewrite fuel (map gate_rule table))
  = rewrite fuel (map gate_rule table) circuit.
Proof.
  destruct (rewrite fuel (map gate_rule table) circuit) as [out | e |] eqn:Hrw;
    cbn [and_then]; [| reflexivity | reflexivity].
  destruct (rewrite_done _ _ _ _ Hrw) as [Hn Hl]. now apply rewrite_normal.
Qed.

Lemma decompose_twice fuel max_iter (table : list (Op -> option (list Op)))
      (native : Op -> bool) circuit :
  and_then (decompose fuel max_iter table native circuit)
    (decompose fuel max_iter table native)
  = decompose fuel max_iter table native circuit.
Proof.
  unfold decompose at 1 3.
  destruct (fixpoint max_iter (rewrite fuel (map gate_rule table)) circuit)
    as [c' | e |] eqn:Hfix; cbn [and_then]; [| reflexivity | reflexivity].
  destruct (first_non_native native c') as [op |] eqn:Hnn; cbn [and_then]; [reflexivity |].
  unfold decompose. rewrite (fixpoint_again _ _ _ _ Hfix). cbn [and_then].
  now rewrite Hnn.
Qed.

(** C5. Both fixpoint passes are idempotent: running the native-gate
    decomposition fixpoint twice yields what running it once yields, and
    likewise the loop-folding fixpoint; and once the decomposition walk of
    [run_pass] has completed, walking the circuit once more with the
    decomposition ruleset leaves it unchanged. *)
Theorem fixpoint_passes_idempotent :
  (forall fuel max_iter (table : list (Op -> option (list Op))) (native : Op -> bool) circuit,
      and_then (decompose fuel max_iter table native circuit)
        (decompose fuel max_iter table native)
      = decompose fuel max_iter table native circuit) /\
  (forall max_iter (fold_pass : list Op -> Outcome Op (list Op)) circuit,
      and_then (fold_fixpoint max_iter fold_pass circuit) (fold_fixpoint max_iter fold_pass)
      = fold_fixpoint max_iter fold_pass circuit) /\
  (forall fuel (table : list (Op -> option (list Op))) circuit,
      and_then (rewrite fuel (map gate_rule table) circuit)
        (rewrite fuel (map gate_rule table))
      = rewrite fuel (map gate_rule table) circuit).
Proof.
  split; [| split].
  - intros. apply decompose_twice.
  - intros. apply fixpoint_twice.
  - intros. apply rewrite_twice.
Qed.

End EngineFacts.
End EngineFacts.

(** ** The parallelization scheduler *)
Module SchedulerFacts.
Import IR Scheduler.

Section SchedulerFacts.
Context {Kind Param : Type}.
Variable diagonal : Kind -> bool.
Abbreviation Op := (Operation Kind Param).
Implicit Types (op a b : Op) (layer : list Op) (frontier : list (list Op)) (q : Qubit).

Lemma touches_In q op : touches q op = true <-> In q (touched op).
Proof.
  unfold touches. rewrite existsb_exists. split.
  - intros (q' & Hin & Heq). apply bool_decide_eq_true in Heq. now subst q'.
  - intros Hin. exists q. split; [exact Hin | now apply bool_decide_eq_true].
Qed.

Lemma qubit_disjoint_spec a b :
  qubit_disjoint a b = true <-> forall q, In q (touched a) -> ~ In q (touched b).
Proof.
  unfold qubit_disjoint. rewrite forallb_forall. split.
  - intros Hd q Ha Hb. specialize (Hd q Ha). apply touches_In in Hb.
    rewrite Hb in Hd. discriminate Hd.
  - intros Hd q Ha. destruct (touches q b) eqn:Hb; [| reflexivity].
    apply touches_In in Hb. now destruct (Hd q Ha).
Qed.

Lemma qubit_disjoint_sym a b : qubit_disjoint a b = qubit_disjoint b a.
Proof.
  apply eq_true_iff_eq. rewrite !qubit_disjoint_spec. split; intros Hd q H1 H2; eapply Hd; eauto.
Qed.

Lemma commutes_sym a b : commutes diagonal a b = commutes diagonal b a.
Proof. unfold commutes. now rewrite qubit_disjoint_sym, andb_comm. Qed.

Lemma compatible_sym a b : compatible diagonal a b = compatible diagonal b a.
Proof. unfold compatible. now rewrite qubit_disjoint_sym, commutes_sym. Qed.

Lemma compatible_spec a b :
  compatible diagonal a b = true <->
  qubit_disjoint a b = true \/ commutes diagonal a b = true.
Proof. unfold compatible. apply orb_true_iff. Qed.

(** Two operations on a common qubit are compatible only if both are
    diagonal. *)
Lemma compatible_shared q a b :
  touches q a = true -> touches q b = true -> compatible diagonal a b = true ->
  diagonal_op diagonal a = true /\ diagonal_op diagonal b = true.
Proof.
  intros Ha Hb Hc. apply touches_In in Ha. apply touches_In in Hb.
  assert (Hd : qubit_disjoint a b = false).
  { destruct (qubit_disjoint a b) eqn:Hd; [| reflexivity].
    rewrite qubit_disjoint_spec in Hd. now destruct (Hd q Ha). }
  unfold compatible, commutes in Hc. rewrite Hd in Hc. cbn in Hc.
  now apply andb_true_iff in Hc.
Qed.

Lemma ordpairs_snoc {A} (R : A -> A -> Prop) (l : list A) (x : A) :
  ForallOrdPairs R l -> Forall (fun y => R y x) l -> ForallOrdPairs R (l ++ [x]).
Proof.
  induction 1 as [| a l Ha Hl IH]; intros Hx; cbn [app].
  - repeat constructor.
  - inversion Hx as [| ? ? Hax Hlx]; subst. constructor.
    + apply List.Forall_app. split; [exact Ha | repeat constructor; exact Hax].
    + apply IH, Hlx.
Qed.

Lemma fits_layer_ok op layer :
  fits diagonal op layer = true -> layer_ok diagonal layer -> layer_ok diagonal (layer ++ [op]).
Proof.
  intros Hfit Hok. apply ordpairs_snoc; [exact Hok |].
  unfold fits in Hfit. rewrite forallb_forall in Hfit.
  apply List.Forall_forall. intros y Hy. apply compatible_spec.
  rewrite compatible_sym. now apply Hfit.
Qed.

Lemma join_layers_ok op frontier frontier' :
  join diagonal op frontier = Some frontier' ->
  Forall (layer_ok diagonal) frontier -> Forall (layer_ok diagonal) frontier'.
Proof.
  revert frontier'. induction frontier as [| layer earlier IH]; intros frontier' Hj Hok;
    [discriminate Hj |].
  cbn [join] in Hj. destruct (fits diagonal op layer) eqn:Hfit; [| discriminate Hj].
  inversion Hok as [| ? ? Hl He]; subst.
  destruct (join diagonal op earlier) as [earlier' |].
  - injection Hj as <-. constructor; [exact Hl | now apply IH].
  - injection Hj as <-. constructor; [now apply fits_layer_ok | exact He].
Qed.

Lemma place_layers_ok op frontier :
  Forall (layer_ok diagonal) frontier -> Forall (layer_ok diagonal) (place diagonal frontier op).
Proof.
  intros Hok. unfold place. destruct (join diagonal op frontier) as [frontier' |] eqn:Hj.
  - eapply join_layers_ok; eassumption.
  - constructor; [| exact Hok]. unfold layer_ok. repeat constructor.
Qed.

Lemma fold_place_layers_ok (circuit : list Op) frontier :
  Forall (layer_ok diagonal) frontier ->
  Forall (layer_ok diagonal) (fold_left (place diagonal) circuit frontier).
Proof.
  revert frontier. induction circuit as [| op rest IH]; intros frontier Hok; [exact Hok |].
  cbn [fold_left]. apply IH, place_layers_ok, Hok.
Qed.

Lemma ordpairs_nth {A} (R : A -> A -> Prop) (l : list A) (i j : nat) (a b : A) :
  ForallOrdPairs R l -> (i < j)%nat ->
  nth_error l i = Some a -> nth_error l j = Some b -> R a b.
Proof.
  intros Hl. revert i j. induction Hl as [| x l Hx Hl IH]; intros i j Hij Hi Hj.
  - destruct i; discriminate Hi.
  - destruct j as [| j]; [lia |]. cbn [nth_error] in Hj. destruct i as [| i].
    + injection Hi as <-. rewrite List.Forall_forall in Hx.
      eapply Hx, nth_error_In, Hj.
    + cbn [nth_error] in Hi. eapply (IH i j); [lia | exact Hi | exact Hj].
Qed.

(** C3. In every Layer sequence the scheduler produces, any two operations
    placed in the same Layer are qubit-disjoint or commuting. *)
Theorem schedule_layers_disjoint_or_commuting (circuit : list Op) :
  Forall (layer_ok diagonal) (schedule diagonal circuit) /\
  (forall layer i j a b,
      In layer (schedule diagonal circuit) -> i <> j ->
      nth_error layer i = Some a -> nth_error layer j = Some b ->
      qubit_disjoint a b = true \/ commutes diagonal a b = true).
Proof.
  assert (Hall : Forall (layer_ok diagonal) (schedule diagonal circuit)).
  { unfold schedule. apply List.Forall_rev, fold_place_layers_ok. constructor. }
  split; [exact Hall |].
  intros layer i j a b Hin Hij Hi Hj.
  rewrite List.Forall_forall in Hall. specialize (Hall layer Hin).
  destruct (Nat.lt_total i j) as [Hlt | [-> | Hgt]]; [| now destruct Hij |].
  - exact (ordpairs_nth _ _ _ _ _ _ Hall Hlt Hi Hj).
  - rewrite qubit_disjoint_sym, commutes_sym.
    exact (ordpairs_nth _ _ _ _ _ _ Hall Hgt Hj Hi).
Qed.

Lemma on_qubit_app q (l k : list Op) : on_qubit q (l ++ k) = on_qubit q l ++ on_qubit q k.
Proof. apply List.filter_app. Qed.

Lemma concat_rev_cons (layer : list Op) frontier :
  concat (rev (layer :: frontier)) = concat (rev frontier) ++ layer.
Proof. cbn [rev]. now rewrite concat_app, (app_nil_r layer : concat [layer] = layer). Qed.

Lemma concat_rev_perm frontier : Permutation (concat (rev frontier)) (concat frontier).
Proof.
  induction frontier as [| layer earlier IH]; [reflexivity |].
  rewrite concat_rev_cons. cbn [concat]. rewrite IH. apply Permutation_app_comm.
Qed.

Lemma join_perm op frontier frontier' :
  join diagonal op frontier = Some frontier' ->
  Permutation (concat frontier') (op :: concat frontier).
Proof.
  revert frontier'. induction frontier as [| layer earlier IH]; intros frontier' Hj;
    [discriminate Hj |].
  cbn [join] in Hj. destruct (fits diagonal op layer); [| discriminate Hj].
  destruct (join diagonal op earlier) as [earlier' |].
  - injection Hj as <-. cbn [concat]. rewrite (IH _ eq_refl).
    symmetry. apply Permutation_middle.
  - injection Hj as <-. cbn [concat]. rewrite <- app_assoc. cbn [app].
    symmetry. apply Permutation_middle.
Qed.

Lemma place_perm op frontier :
  Permutation (concat (place diagonal frontier op)) (op :: concat frontier).
Proof.
  unfold place. destruct (join diagonal op frontier) as [frontier' |] eqn:Hj.
  - now apply join_perm.
  - reflexivity.
Qed.

Lemma fold_place_perm (circuit : list Op) frontier :
  Permutation (concat (fold_left (place diagonal) circuit frontier))
              (concat frontier ++ circuit).
Proof.
  revert frontier. induction circuit as [| op rest IH]; intros frontier; cbn [fold_left].
  - now rewrite app_nil_r.
  - rewrite IH, place_perm. cbn [app]. apply Permutation_middle.
Qed.

(** The scheduler neither drops nor duplicates an operation. *)
Lemma schedule_perm (circuit : list Op) :
  Permutation (flatten (schedule diagonal circuit)) circuit.
Proof.
  unfold flatten, schedule. rewrite concat_rev_perm, fold_place_perm. reflexivity.
Qed.

(** An operation on [q] that fits a Layer finds no operation on [q] there,
    unless both are diagonal. *)
Lemma fits_on_qubit q op layer :
  touches q op = true -> fits diagonal op layer = true ->
  (forall x, In x layer -> touches q x = true -> compatible diagonal op x = false) ->
  on_qubit q layer = [].
Proof.
  intros Hop Hfit Hsafe. unfold fits in Hfit. rewrite forallb_forall in Hfit.
  unfold on_qubit. induction layer as [| x layer IH]; [reflexivity |].
  cbn [List.filter]. destruct (touches q x) eqn:Hx.
  - specialize (Hfit x (or_introl eq_refl)). rewrite (Hsafe x (or_introl eq_refl) Hx) in Hfit.
    discriminate Hfit.
  - apply IH; intros; [apply Hfit | apply Hsafe]; auto using in_cons.
Qed.

Lemma join_on_qubit q op frontier frontier' :
  join diagonal op frontier = Some frontier' ->
  (forall x, In x (concat frontier) -> touches q op = true -> touches q x = true ->
             compatible diagonal op x = false) ->
  on_qubit q (concat (rev frontier')) = on_qubit q (concat (rev frontier)) ++ on_qubit q [op].
Proof.
  revert frontier'. induction frontier as [| layer earlier IH]; intros frontier' Hj Hsafe;
    [discriminate Hj |].
  cbn [join] in Hj. destruct (fits diagonal op layer) eqn:Hfit; [| discriminate Hj].
  destruct (join diagonal op earlier) as [earlier' |] eqn:Hje.
  - injection Hj as <-. rewrite !concat_rev_cons, !on_qubit_app.
    rewrite (IH _ eq_refl).
    2:{ intros x Hx. apply Hsafe. cbn [concat]. apply in_or_app. now right. }
    rewrite <- !app_assoc. f_equal.
    destruct (touches q op) eqn:Hop.
    + rewrite (fits_on_qubit q op layer Hop Hfit).
      * now rewrite app_nil_r.
      * intros x Hx Hqx. apply Hsafe; auto. cbn [concat]. apply in_or_app. now left.
    + unfold on_qubit at 1 4. cbn [List.filter]. rewrite Hop. now rewrite app_nil_r.
  - injection Hj as <-. rewrite !concat_rev_cons, !on_qubit_app.
    now rewrite <- app_assoc.
Qed.

Lemma place_on_qubit q op frontier :
  (forall x, In x (concat frontier) -> touches q op = true -> touches q x = true ->
             compatible diagonal op x = false) ->
  on_qubit q (concat (rev (place diagonal frontier op)))
  = on_qubit q (concat (rev frontier)) ++ on_qubit q [op].
Proof.
  intros Hsafe. unfold place. destruct (join diagonal op frontier) as [frontier' |] eqn:Hj.
  - now apply join_on_qubit.
  - now rewrite concat_rev_cons, on_qubit_app.
Qed.

(** With at most one diagonal operation on [q] in the circuit, an operation
    on [q] is compatible with no earlier operation on [q]. *)
Lemma diagonal_on_safe q (placed rest : list Op) op x :
  (length (diagonal_on diagonal q (placed ++ op :: rest)) <= 1)%nat ->
  In x placed -> touches q op = true -> touches q x = true ->
  compatible diagonal op x = false.
Proof.
  intros Hlen Hx Hqop Hqx.
  destruct (compatible diagonal op x) eqn:Hc; [| reflexivity].
  destruct (compatible_shared q op x Hqop Hqx Hc) as [Hdop Hdx].
  unfold diagonal_on in Hlen. rewrite List.filter_app in Hlen. cbn [List.filter] in Hlen.
  rewrite Hqop, Hdop in Hlen. cbn [andb] in Hlen.
  rewrite length_app in Hlen. cbn [length] in Hlen.
  assert (Hin : In x (List.filter (fun o => touches q o && diagonal_op diagonal o) placed)).
  { apply filter_In. split; [exact Hx |]. now rewrite Hqx, Hdx. }
  destruct (List.filter _ placed); [destruct Hin | cbn [length] in Hlen; lia].
Qed.

Lemma fold_place_on_qubit q (rest placed : list Op) frontier :
  on_qubit q (concat (rev frontier)) = on_qubit q placed ->
  (forall x, In x (concat frontier) -> In x placed) ->
  (length (diagonal_on diagonal q (placed ++ rest)) <= 1)%nat ->
  on_qubit q (concat (rev (fold_left (place diagonal) rest frontier)))
  = on_qubit q (placed ++ rest).
Proof.
  revert placed frontier. induction rest as [| op rest IH]; intros placed frontier Hq Hin Hlen.
  - cbn [fold_left]. now rewrite app_nil_r.
  - cbn [fold_left].
    replace (placed ++ op :: rest) with ((placed ++ [op]) ++ rest)
      by now rewrite <- app_assoc.
    apply IH.
    + rewrite place_on_qubit, on_qubit_app, Hq; [reflexivity |].
      intros x Hx. eapply diagonal_on_safe; [exact Hlen | now apply Hin].
    + intros x Hx. eapply Permutation_in in Hx; [| apply place_perm].
      apply in_or_app. destruct Hx as [<- | Hx]; [right; now left | left; now apply Hin].
    + now rewrite <- app_assoc.
Qed.

(** The pass-through baseline keeps the program order. *)
Lemma pass_through_flatten (circuit : list Op) :
  flatten (pass_through circuit) = circuit.
Proof.
  unfold flatten, pass_through. induction circuit as [| op rest IH]; [reflexivity |].
  cbn [map concat app]. now rewrite IH.
Qed.

Lemma conflicting_on_app q (l k : list Op) :
  conflicting_on diagonal q (l ++ k)
  = conflicting_on diagonal q l ++ conflicting_on diagonal q k.
Proof. apply List.filter_app. Qed.

(** A Layer that a non-diagonal operation on [q] fits holds no non-diagonal
    operation on [q]. *)
Lemma fits_conflicting q op layer :
  touches q op = true -> diagonal_op diagonal op = false ->
  fits diagonal op layer = true ->
  conflicting_on diagonal q layer = [].
Proof.
  intros Hq Hd Hfit. unfold fits in Hfit. rewrite forallb_forall in Hfit.
  unfold conflicting_on. induction layer as [| x layer IH]; [reflexivity |].
  cbn [List.filter]. destruct (touches q x) eqn:Hx; cbn [andb].
  - destruct (compatible_shared q op x Hq Hx (Hfit x (or_introl eq_refl))) as [Hdop _].
    congruence.
  - apply IH. intros y Hy. apply Hfit. now right.
Qed.

Lemma join_conflicting q op frontier frontier' :
  join diagonal op frontier = Some frontier' ->
  conflicting_on diagonal q (concat (rev frontier'))
  = conflicting_on diagonal q (concat (rev frontier)) ++ conflicting_on diagonal q [op].
Proof.
  revert frontier'. induction frontier as [| layer earlier IH]; intros frontier' Hj;
    [discriminate Hj |].
  cbn [join] in Hj. destruct (fits diagonal op layer) eqn:Hfit; [| discriminate Hj].
  destruct (join diagonal op earlier) as [earlier' |] eqn:Hje.
  - injection Hj as <-. rewrite !concat_rev_cons, !conflicting_on_app, (IH _ eq_refl).
    rewrite <- !app_assoc. f_equal.
    destruct (touches q op && negb (diagonal_op diagonal op)) eqn:Hp.
    + apply andb_true_iff in Hp. destruct Hp as [Hq Hd]. apply negb_true_iff in Hd.
      rewrite (fits_conflicting q op layer Hq Hd Hfit). now rewrite app_nil_r.
    + unfold conflicting_on at 1 4. cbn [List.filter]. rewrite Hp. now rewrite app_nil_r.
  - injection Hj as <-. rewrite !concat_rev_cons, !conflicting_on_app.
    now rewrite <- app_assoc.
Qed.

Lemma place_conflicting q op frontier :
  conflicting_on diagonal q (concat (rev (place diagonal frontier op)))
  = conflicting_on diagonal q (concat (rev frontier)) ++ conflicting_on diagonal q [op].
Proof.
  unfold place. destruct (join diagonal op frontier) as [frontier' |] eqn:Hj.
  - now apply join_conflicting.
  - now rewrite concat_rev_cons, conflicting_on_app.
Qed.

Lemma fold_place_conflicting q (rest : list Op) frontier :
  conflicting_on diagonal q (concat (rev (fold_left (place diagonal) rest frontier)))
  = conflicting_on diagonal q (concat (rev frontier)) ++ conflicting_on diagonal q rest.
Proof.
  revert frontier. induction rest as [| op rest IH]; intros frontier; cbn [fold_left].
  - unfold conflicting_on at 3. cbn [List.filter]. now rewrite app_nil_r.
  - rewrite IH, place_conflicting, <- app_assoc. f_equal.
    change (op :: rest) with ([op] ++ rest). now rewrite conflicting_on_app.
Qed.

(** Whatever kinds are taken as diagonal, the non-diagonal operations on a
    qubit keep their order. *)
Lemma schedule_keeps_conflicting (circuit : list Op) (q : Qubit) :
  conflicting_on diagonal q (flatten (schedule diagonal circuit))
  = conflicting_on diagonal q circuit.
Proof.
  unfold flatten, schedule. now rewrite fold_place_conflicting.
Qed.

End SchedulerFacts.

(** Under the qubit-disjointness rule alone the order on every qubit is
    kept. *)
Lemma disjointness_rule_keeps_order {Kind Param : Type}
      (circuit : list (Operation Kind Param)) (q : Qubit) :
  on_qubit q (flatten (schedule (fun _ => false) circuit)) = on_qubit q circuit.
Proof.
  unfold flatten, schedule.
  apply (fold_place_on_qubit (fun _ => false) q circuit [] []);
    [reflexivity | intros x [] |].
  unfold diagonal_on. cbn [app].
  induction circuit as [| op rest IH]; cbn [List.filter length]; [lia |].
  replace (touches q op && diagonal_op (fun _ : Kind => false) op) with false; [exact IH |].
  destruct op; cbn; now rewrite ?andb_false_r.
Qed.


End SchedulerFacts.

(** ** Building a circuit *)
Module CircuitIRFacts.
Import IR CircuitIR.

Section CircuitIRFacts.
Context {Kind Param : Type}.
Abbreviation Op := (Operation Kind Param).
Abbreviation Circ := (Circuit Kind Param).

Lemma resources_declared_ext (c c' : Circ) (op : Op) :
  qregs c' = qregs c -> cregs c' = cregs c ->
  resources_declared c' op = resources_declared c op.
Proof. unfold resources_declared. now intros -> ->. Qed.

(** Appending a program that holds an operation on an undeclared resource
    fails at the first such operation. *)
Lemma append_all_fails (program : list Op) (c : Circ) :
  (exists op, In op program /\ resources_declared c op = false) ->
  exists before offending after,
    program = before ++ offending :: after /\
    Forall (fun op => resources_declared c op = true) before /\
    resources_declared c offending = false /\
    append_all c program = Failed (UnknownResourceError offending).
Proof.
  revert c. induction program as [| op rest IH]; intros c (bad & Hin & Hbad);
    [destruct Hin |].
  cbn [append_all]. destruct (resources_declared c op) eqn:Hop.
  - unfold append. rewrite Hop. cbn [and_then].
    destruct Hin as [-> | Hin]; [congruence |].
    set (c' := {| qregs := qregs c; cregs := cregs c; ops := ops c ++ [op] |}).
    destruct (IH c') as (before & offending & after & -> & Hb & Ho & Hfail).
    { exists bad. split; [exact Hin |].
      now rewrite (resources_declared_ext c c'). }
    exists (op :: before), offending, after. repeat split.
    + constructor; [exact Hop |].
      eapply List.Forall_impl; [| exact Hb]. intros x Hx.
      now rewrite <- (resources_declared_ext c c').
    + now rewrite <- (resources_declared_ext c c').
    + exact Hfail.
  - exists [], op, rest. unfold append. rewrite Hop. repeat split. constructor.
Qed.

(** C7. For every circuit that holds an operation referencing an undeclared
    classical bit, the pipeline fails with UnknownResourceError, naming the
    first operation of the program that references an undeclared qubit or
    bit, and no output circuit reaches the caller. *)
Theorem undeclared_bit_aborts {Output : Type} (passes : Circ -> Outcome Op Output)
        (qdecl cdecl : list (string * nat)) (program : list Op) :
  (exists op, In op program /\ references_undeclared_bit cdecl op = true) ->
  exists before offending after,
    program = before ++ offending :: after /\
    Forall (fun op => resources_declared (MkCircuit qdecl cdecl []) op = true) before /\
    resources_declared (MkCircuit qdecl cdecl []) offending = false /\
    compile passes qdecl cdecl program = Failed (UnknownResourceError offending) /\
    observable_output (compile passes qdecl cdecl program) = None.
Proof.
  intros (op & Hin & Hbit).
  destruct (append_all_fails program (MkCircuit qdecl cdecl [])) as
    (before & offending & after & Hp & Hb & Ho & Hfail).
  { exists op. split; [exact Hin |].
    unfold resources_declared. cbn [cregs qregs].
    unfold references_undeclared_bit in Hbit. apply negb_true_iff in Hbit.
    rewrite Hbit. apply andb_false_r. }
  exists before, offending, after.
  unfold compile, build. rewrite Hfail. cbn [and_then observable_output].
  repeat split; assumption.
Qed.

End CircuitIRFacts.
End CircuitIRFacts.

Module SamplesFacts.
Import IR Samples.

(** One walk rewrites the replacement of [cx] further. *)
Example rewrite_cx :
  Engine.rewrite 10 (map Engine.gate_rule sample_table) [Gate "cx"%string [q0; q1] []]
  = Done [u_gate q1; Gate "cz"%string [q0; q1] []; u_gate q1].
Proof. reflexivity. Qed.

Example decompose_cx :
  Engine.decompose 10 3 sample_table native_kind [Gate "cx"%string [q0; q1] []]
  = Done [u_gate q1; Gate "cz"%string [q0; q1] []; u_gate q1].
Proof. vm_compute. reflexivity. Qed.

Example decompose_unsupported :
  Engine.decompose 10 3 sample_table native_kind [Gate "swap"%string [q0; q1] []]
  = Failed (UnsupportedGateError (Gate "swap"%string [q0; q1] [])).
Proof. vm_compute. reflexivity. Qed.

(** With rules on windows one walk need not reach a fixpoint (the pair
    [h; h] appears behind the scan); the wrapper does. *)
Example walk_with_windows :
  Engine.rewrite 10 [cancel_hh; x_to_h] [Gate "h"%string [q0] []; Gate "x"%string [q0] []]
  = Done [Gate "h"%string [q0] []; Gate "h"%string [q0] []]
  /\ Engine.fixpoint 3 (Engine.rewrite 10 [cancel_hh; x_to_h])
       [Gate "h"%string [q0] []; Gate "x"%string [q0] []]
     = Done [].
Proof. split; vm_compute; reflexivity. Qed.

(** Operations on different qubits share a Layer; a Barrier cuts. *)
Example schedule_disjoint :
  Scheduler.schedule diagonal_kind [Gate "h"%string [q0] [] : SOp; Gate "h"%string [q1] []]
  = [[Gate "h"%string [q0] []; Gate "h"%string [q1] []]].
Proof. vm_compute. reflexivity. Qed.

Example schedule_barrier :
  Scheduler.schedule diagonal_kind
    [Gate "h"%string [q0] [] : SOp; Barrier [q0; q1]; Gate "h"%string [q1] []]
  = [[Gate "h"%string [q0] []]; [Barrier [q0; q1]]; [Gate "h"%string [q1] []]].
Proof. vm_compute. reflexivity. Qed.

(** Under the qubit-disjointness rule alone the three operations of
    [phase_after_cz] stay in three Layers. *)
Example schedule_no_diagonal :
  Scheduler.schedule no_diagonal phase_after_cz
  = [[Gate "x"%string [q1] []]; [Gate "cz"%string [q0; q1] []];
     [Gate "rz"%string [q0] [QASM.PiFrac 1 4]]].
Proof. vm_compute. reflexivity. Qed.

(** The scheduler moves the phase rotation on [q0] into the first Layer. *)
Example schedule_phase_after_cz :
  Scheduler.schedule diagonal_kind phase_after_cz
  = [[Gate "x"%string [q1] []; Gate "rz"%string [q0] [QASM.PiFrac 1 4]];
     [Gate "cz"%string [q0; q1] []]].
Proof. vm_compute. reflexivity. Qed.

Lemma schedule_layers_disjoint_or_commuting_witness :
  qubit_disjoint (Gate "rz"%string [q0] [QASM.PiFrac 1 4] : SOp) (Gate "x"%string [q1] []) = true
  \/ Scheduler.commutes diagonal_kind
       (Gate "rz"%string [q0] [QASM.PiFrac 1 4] : SOp) (Gate "x"%string [q1] []) = true.
Proof.
  destruct (SchedulerFacts.schedule_layers_disjoint_or_commuting diagonal_kind phase_after_cz)
    as [_ Hpairs].
  apply (Hpairs [Gate "x"%string [q1] []; Gate "rz"%string [q0] [QASM.PiFrac 1 4]] 1%nat 0%nat).
  - vm_compute. left. reflexivity.
  - lia.
  - reflexivity.
  - reflexivity.
Defined.

(** With the diagonal rule on, the rotation has moved before the
    controlled-Z it commutes with; the order of [x] and [cz] on [q1] is
    kept. *)
Example schedule_on_q1 :
  Scheduler.on_qubit q1 (Scheduler.flatten (Scheduler.schedule diagonal_kind phase_after_cz))
  = Scheduler.on_qubit q1 phase_after_cz.
Proof. vm_compute. reflexivity. Qed.

(** A measurement into bit 5 of a four-bit register. *)
Lemma undeclared_bit_aborts_witness :
  exists before offending after,
    measure_into_bit_5 = before ++ offending :: after /\
    Forall (fun op => CircuitIR.resources_declared
                        (CircuitIR.MkCircuit four_qubits four_bits []) op = true) before /\
    CircuitIR.resources_declared
      (CircuitIR.MkCircuit four_qubits four_bits []) offending = false /\
    CircuitIR.compile (fun c => Done (Scheduler.schedule diagonal_kind (CircuitIR.ops c)))
      four_qubits four_bits measure_into_bit_5
    = Failed (UnknownResourceError offending) /\
    CircuitIR.observable_output
      (CircuitIR.compile (fun c => Done (Scheduler.schedule diagonal_kind (CircuitIR.ops c)))
         four_qubits four_bits measure_into_bit_5) = None.
Proof.
  apply (CircuitIRFacts.undeclared_bit_aborts
           (fun c => Done (Scheduler.schedule diagonal_kind (CircuitIR.ops c)))
           four_qubits four_bits measure_into_bit_5).
  exists (Measure q0 ("c"%string, 5%nat)). split.
  - right. left. reflexivity.
  - vm_compute. reflexivity.
Defined.

Example measure_into_bit_5_fails :
  CircuitIR.build four_qubits four_bits measure_into_bit_5
  = Failed (UnknownResourceError (Measure q0 ("c"%string, 5%nat))).
Proof. vm_compute. reflexivity. Qed.

End SamplesFacts.

(** ** More on the kernel built by [qft] *)
Module QASMMore.
Import QASM QASMFacts.

Lemma in_flat_map_range (f : Z -> list Stmt) (lo hi : Z) (s : Stmt) :
  In s (flat_map f (range lo hi)) <-> exists i, lo <= i < hi /\ In s (f i).
Proof.
  rewrite in_flat_map. split; intros (i & Hi & Hs); exists i; split; auto;
    now apply range_In.
Qed.

(** Step [i] of the transform touches no qubit below [i], and none at or
    above [n] when [i] is below [n]. *)
Lemma qft_step_refs (n i : Z) (s : Stmt) (q : Z) :
  In s (qft_step n i) -> In q (qubit_refs s) -> i <= q /\ (i < n -> q < n).
Proof.
  unfold qft_step, dyadic_roatation_layer, cnot_fanout_layer.
  rewrite !in_app_iff, !in_map_iff. cbn [In].
  intros [[<- | []] | [(j & <- & Hj) | [(j & <- & Hj) | [(j & <- & Hj) | [(j & <- & Hj) | [<- | []]]]]]];
    cbn [qubit_refs In]; try apply range_In in Hj; intros Hq;
    repeat match goal with H : _ \/ _ |- _ => destruct H end;
    subst; try contradiction; lia.
Qed.

Lemma main_loop_refs (n : Z) (s : Stmt) (q : Z) :
  In s (main_loop n) -> In q (qubit_refs s) -> 0 <= q < n.
Proof.
  unfold main_loop. rewrite in_flat_map_range. intros (i & Hi & Hs) Hq.
  destruct (qft_step_refs n i s q Hs Hq) as [Hlo Hhi]. lia.
Qed.

Lemma main_loop_no_bits (n : Z) (s : Stmt) : In s (main_loop n) -> bit_refs s = [].
Proof.
  intros Hs. pose proof (main_loop_gates n) as Hg. rewrite List.Forall_forall in Hg.
  specialize (Hg s Hs). now destruct s.
Qed.

Lemma qft_program_refs (n : Z) (bit_str : string) :
  len bit_str <= n ->
  Forall (fun s => Forall (fun q => 0 <= q < n) (qubit_refs s)
                   /\ Forall (fun c => 0 <= c < n) (bit_refs s))
         (qft_program n bit_str).
Proof.
  intros Hlen. unfold qft_program.
  repeat (apply List.Forall_app; split).
  - repeat constructor.
  - rewrite init_loop_ones. apply List.Forall_forall. intros s Hs.
    apply in_map_iff in Hs. destruct Hs as (i & <- & Hi). apply ones_In in Hi.
    cbn [qubit_refs bit_refs]. split; repeat constructor; lia.
  - apply List.Forall_forall. intros s Hs. split.
    + apply List.Forall_forall. intros q Hq. eapply main_loop_refs; eassumption.
    + rewrite (main_loop_no_bits n s Hs). constructor.
  - apply List.Forall_forall. intros s Hs. unfold measure_loop in Hs.
    apply in_map_iff in Hs. destruct Hs as (i & <- & Hi). apply range_In in Hi.
    cbn [qubit_refs bit_refs]. split; repeat constructor; lia.
Qed.

(** X1. When [bit_str] is no longer than [n], every qubit index the kernel
    reads from [qreg] and every bit index it writes in [creg] lies within
    the declared registers of size [n]. *)
Theorem qft_program_within_registers (n : Z) (bit_str : string) :
  len bit_str <= n ->
  Forall (fun s => Forall (fun q => 0 <= q < n) (qubit_refs s)
                   /\ Forall (fun c => 0 <= c < n) (bit_refs s))
         (qft_program n bit_str).
Proof. apply qft_program_refs. Qed.

Lemma qft_program_within_registers_witness :
  Forall (fun s => Forall (fun q => 0 <= q < 4) (qubit_refs s)
                   /\ Forall (fun c => 0 <= c < 4) (bit_refs s))
         (qft_program 4 "0101").
Proof. apply (qft_program_within_registers 4 "0101"). vm_compute. discriminate. Defined.

(** X2. Every controlled-NOT of the kernel has its control strictly below
    its target, both within the register: no gate is controlled by its own
    target, and the fan-out always runs from a qubit to the later ones. *)
Theorem cx_control_below_target (n : Z) (bit_str : string) :
  Forall (fun s => match s with CX c t => 0 <= c < t /\ t < n | _ => True end)
         (qft_program n bit_str).
Proof.
  unfold qft_program. repeat (apply List.Forall_app; split).
  - repeat constructor.
  - rewrite init_loop_ones. apply List.Forall_forall. intros s Hs.
    apply in_map_iff in Hs. now destruct Hs as (i & <- & _).
  - apply List.Forall_forall. intros s Hs. destruct s; try exact I.
    unfold main_loop in Hs. apply in_flat_map_range in Hs. destruct Hs as (i & Hi & Hs).
    unfold qft_step, dyadic_roatation_layer, cnot_fanout_layer in Hs.
    rewrite !in_app_iff, !in_map_iff in Hs. cbn [In] in Hs.
    destruct Hs as [[Hs | []] | [(j & Hs & Hj) | [(j & Hs & Hj) | [(j & Hs & Hj) | [(j & Hs & Hj) | [Hs | []]]]]]];
      try discriminate Hs; injection Hs as <- <-; apply range_In in Hj; lia.
  - apply List.Forall_forall. intros s Hs. unfold measure_loop in Hs.
    apply in_map_iff in Hs. now destruct Hs as (i & <- & _).
Qed.

Lemma count_app (p : Stmt -> bool) (l k : list Stmt) :
  count p (l ++ k) = count p l + count p k.
Proof. unfold count. rewrite List.filter_app, length_app. lia. Qed.

Lemma count_map_all (p : Stmt -> bool) (f : Z -> Stmt) (l : list Z) :
  (forall i, p (f i) = true) -> count p (map f l) = Z.of_nat (length l).
Proof.
  intros Hp. unfold count. f_equal.
  induction l as [| i l IH]; [reflexivity |]. cbn [map List.filter]. rewrite Hp.
  cbn [length]. now rewrite IH.
Qed.

Lemma count_map_none (p : Stmt -> bool) (f : Z -> Stmt) (l : list Z) :
  (forall i, p (f i) = false) -> count p (map f l) = 0.
Proof.
  intros Hp. unfold count.
  induction l as [| i l IH]; [reflexivity |]. cbn [map List.filter]. now rewrite Hp.
Qed.

Lemma count_range (p : Stmt -> bool) (f : Z -> Stmt) (lo hi : Z) :
  (forall i, p (f i) = true) -> count p (map f (range lo hi)) = Z.max 0 (hi - lo).
Proof. intros Hp. rewrite count_map_all, range_length by exact Hp. lia. Qed.

(** The gates of one step, by kind. *)
Lemma qft_step_counts (n i : Z) :
  i < n ->
  count is_h (qft_step n i) = 1 /\
  count is_cx (qft_step n i) = 2 * (n - i - 1) /\
  count is_rz (qft_step n i) = 2 * (n - i - 1) + 1 /\
  count is_x (qft_step n i) = 0 /\
  count is_measure (qft_step n i) = 0.
Proof.
  intros Hi. unfold qft_step, dyadic_roatation_layer, cnot_fanout_layer.
  rewrite !count_app.
  repeat split;
    repeat (first [ rewrite count_range by reflexivity
                  | rewrite count_map_none by reflexivity ]);
    unfold count; cbn [List.filter is_h is_cx is_rz is_x is_measure length]; lia.
Qed.

Lemma main_loop_counts_from (n : Z) (k : nat) (lo : Z) :
  Z.of_nat k = n - lo ->
  count is_h (flat_map (qft_step n) (range lo n)) = n - lo /\
  count is_cx (flat_map (qft_step n) (range lo n)) = (n - lo) * (n - lo - 1) /\
  count is_rz (flat_map (qft_step n) (range lo n)) = (n - lo) * (n - lo) /\
  count is_x (flat_map (qft_step n) (range lo n)) = 0 /\
  count is_measure (flat_map (qft_step n) (range lo n)) = 0.
Proof.
  revert lo. induction k as [| k IH]; intros lo Hk.
  - replace (range lo n) with (@nil Z).
    + unfold count. cbn [flat_map List.filter length]. repeat split; nia.
    + unfold range. replace (Z.to_nat (n - lo)) with 0%nat by lia. reflexivity.
  - rewrite range_cons by lia. cbn [flat_map]. rewrite !count_app.
    destruct (IH (lo + 1)) as (Hh & Hc & Hr & Hx & Hm); [lia |].
    destruct (qft_step_counts n lo) as (Sh & Sc & Sr & Sx & Sm); [lia |].
    rewrite Hh, Hc, Hr, Hx, Hm, Sh, Sc, Sr, Sx, Sm. repeat split; nia.
Qed.

(** X3. The size of the kernel: with [m = max(0, n)] it holds [m] Hadamard
    gates, [m * (m - 1)] controlled-NOTs, [m * m] phase rotations and [m]
    measurements, and as many [X] gates as [bit_str] has positions holding
    ['1']. *)
Theorem qft_program_gate_counts (n : Z) (bit_str : string) :
  let m := Z.max 0 n in
  count is_h (qft_program n bit_str) = m /\
  count is_cx (qft_program n bit_str) = m * (m - 1) /\
  count is_rz (qft_program n bit_str) = m * m /\
  count is_measure (qft_program n bit_str) = m /\
  count is_x (qft_program n bit_str) = Z.of_nat (length (ones bit_str)).
Proof.
  intros m. unfold qft_program, measure_loop, main_loop.
  rewrite !count_app, init_loop_ones.
  assert (Hmain :
    count is_h (flat_map (qft_step n) (range 0 n)) = m /\
    count is_cx (flat_map (qft_step n) (range 0 n)) = m * (m - 1) /\
    count is_rz (flat_map (qft_step n) (range 0 n)) = m * m /\
    count is_x (flat_map (qft_step n) (range 0 n)) = 0 /\
    count is_measure (flat_map (qft_step n) (range 0 n)) = 0).
  { destruct (Z.le_gt_cases n 0) as [Hn | Hn].
    - replace (range 0 n) with (@nil Z).
      + subst m. rewrite Z.max_l by lia. unfold count. cbn [flat_map List.filter length].
        repeat split; lia.
      + unfold range. replace (Z.to_nat (n - 0)) with 0%nat by lia. reflexivity.
    - subst m. rewrite Z.max_r by lia.
      pose proof (main_loop_counts_from n (Z.to_nat n) 0) as Hc.
      rewrite !Z.sub_0_r in Hc. apply Hc. lia. }
  destruct Hmain as (Hh & Hc & Hr & Hx & Hm). rewrite Hh, Hc, Hr, Hx, Hm.
  rewrite (count_range is_measure) by reflexivity.
  rewrite !(count_map_none _ (fun i => Measure i i)) by reflexivity.
  rewrite !(count_map_none _ X) by reflexivity.
  rewrite (count_map_all is_x X) by reflexivity.
  unfold count. cbn [List.filter is_h is_cx is_rz is_x is_measure length negb].
  subst m. repeat split; lia.
Qed.

(** X4. In every phase rotation of the kernel, the integer the source
    divides by ([2**(j + 2)], [2**(n - i + 2)]) is a power of two, at least
    8 and so never 0, and the integer it multiplies [math.pi] by (1, or
    [2**(n - i + 1) - 1]) is positive and less than half that divisor.  This
    is about the integer operands, which Python computes exactly, not about
    the rounded quotient. *)
Theorem rz_angles_dyadic (n : Z) (bit_str : string) :
  Forall (fun s => match s with
                   | RZ _ (PiFrac num den) =>
                       0 < num /\ 2 * num < den /\ exists k, 3 <= k /\ den = 2 ^ k
                   | _ => True
                   end)
         (qft_program n bit_str).
Proof.
  unfold qft_program. repeat (apply List.Forall_app; split).
  - repeat constructor.
  - rewrite init_loop_ones. apply List.Forall_forall. intros s Hs.
    apply in_map_iff in Hs. now destruct Hs as (i & <- & _).
  - apply List.Forall_forall. intros s Hs. destruct s as [| | | | q [num den] | |]; try exact I.
    unfold main_loop in Hs. apply in_flat_map_range in Hs. destruct Hs as (i & Hi & Hs).
    unfold qft_step, dyadic_roatation_layer, cnot_fanout_layer in Hs.
    rewrite !in_app_iff, !in_map_iff in Hs. cbn [In] in Hs.
    assert (Hdy : forall j, i + 1 <= j ->
                    0 < 1 /\ 2 * 1 < 2 ^ (j + 2) /\ exists k, 3 <= k /\ 2 ^ (j + 2) = 2 ^ k).
    { intros j Hj. split; [lia | split].
      - assert (2 ^ 3 <= 2 ^ (j + 2)) by (apply Z.pow_le_mono_r; lia).
        change (2 ^ 3) with 8 in *. lia.
      - exists (j + 2). split; [lia | reflexivity]. }
    destruct Hs as [[Hs | []] | [(j & Hs & Hj) | [(j & Hs & Hj) | [(j & Hs & Hj) | [(j & Hs & Hj) | [Hs | []]]]]]];
      try discriminate Hs; try (injection Hs as <- <- <-; apply range_In in Hj; apply Hdy; lia).
    injection Hs as <- <- <-.
    assert (Hp : 2 ^ (n - i + 2) = 2 * 2 ^ (n - i + 1)).
    { replace (n - i + 2) with (Z.succ (n - i + 1)) by lia. apply Z.pow_succ_r. lia. }
    assert (2 ^ 2 <= 2 ^ (n - i + 1)) by (apply Z.pow_le_mono_r; lia).
    change (2 ^ 2) with 4 in *.
    split; [lia | split; [lia |]]. exists (n - i + 2). split; [lia | reflexivity].
  - apply List.Forall_forall. intros s Hs. unfold measure_loop in Hs.
    apply in_map_iff in Hs. now destruct Hs as (i & <- & _).
Qed.

(** X5. For [n <= 0] the transform and measurement loops do not run: the
    kernel holds the two declarations and the [X] gates only. *)
Theorem qft_program_no_qubits (n : Z) (bit_str : string) :
  n <= 0 ->
  qft_program n bit_str = [QRegDecl n; CRegDecl n] ++ map X (ones bit_str).
Proof.
  intros Hn. unfold qft_program, main_loop, measure_loop.
  replace (range 0 n) with (@nil Z).
  - cbn [flat_map map]. now rewrite !app_nil_r, init_loop_ones.
  - unfold range. replace (Z.to_nat (n - 0)) with 0%nat by lia. reflexivity.
Qed.

Lemma qft_program_no_qubits_witness :
  qft_program 0 "11" = [QRegDecl 0; CRegDecl 0] ++ map X (ones "11").
Proof. apply (qft_program_no_qubits 0 "11"). lia. Defined.

Lemma filter_flat_map {A} (p : Stmt -> bool) (f : A -> list Stmt) (l : list A) :
  List.filter p (flat_map f l) = flat_map (fun a => List.filter p (f a)) l.
Proof.
  induction l as [| a l IH]; [reflexivity |].
  cbn [flat_map]. now rewrite List.filter_app, IH.
Qed.

Lemma filter_map_none (p : Stmt -> bool) (f : Z -> Stmt) (l : list Z) :
  (forall i, p (f i) = false) -> List.filter p (map f l) = [].
Proof.
  intros Hp. induction l as [| i l IH]; [reflexivity |].
  cbn [map List.filter]. now rewrite Hp.
Qed.

(** X6. The Hadamard gates of the kernel are [H] on [qreg[0]], ...,
    [qreg[n-1]], each once and in increasing order. *)
Theorem hadamards_in_order (n : Z) (bit_str : string) :
  List.filter is_h (qft_program n bit_str) = map H (range 0 n).
Proof.
  unfold qft_program, main_loop, measure_loop.
  rewrite !List.filter_app, init_loop_ones.
  rewrite (filter_map_none is_h X), (filter_map_none is_h (fun i => Measure i i))
    by reflexivity.
  cbn [List.filter is_h app]. rewrite app_nil_r, filter_flat_map.
  induction (range 0 n) as [| i l IH]; [reflexivity |].
  cbn [flat_map map]. rewrite IH. unfold qft_step, dyadic_roatation_layer, cnot_fanout_layer.
  rewrite !List.filter_app.
  rewrite !(filter_map_none is_h (fun j => RZ j _)), !(filter_map_none is_h (CX i))
    by reflexivity.
  reflexivity.
Qed.

(** X7. Step [i] of the transform touches no qubit below [i]: once step [i]
    is over, the later steps leave [qreg[i]] alone until it is measured. *)
Theorem qft_step_leaves_earlier_qubits (n i : Z) :
  Forall (fun s => Forall (fun q => i <= q) (qubit_refs s)) (qft_step n i).
Proof.
  apply List.Forall_forall. intros s Hs. apply List.Forall_forall. intros q Hq.
  now destruct (qft_step_refs n i s q Hs Hq).
Qed.

Lemma get_beyond (s : string) (k : nat) :
  (String.length s <= k)%nat -> String.get k s = None.
Proof.
  revert k. induction s as [| c s IH]; intros k Hk; [reflexivity |].
  destruct k as [| k]; cbn in Hk; [lia |]. cbn [String.get]. apply IH. lia.
Qed.

Lemma is_one_beyond (bit_str : string) (i : Z) :
  len bit_str <= i -> is_one bit_str i = false.
Proof.
  intros Hi. unfold is_one. rewrite get_beyond; [reflexivity |]. unfold len in Hi. lia.
Qed.

Lemma range_split (lo mid hi : Z) :
  lo <= mid <= hi -> range lo hi = range lo mid ++ range mid hi.
Proof.
  intros Hm. remember (Z.to_nat (mid - lo)) as k eqn:Hk. revert lo Hm Hk.
  induction k as [| k IH]; intros lo Hm Hk.
  - assert (lo = mid) by lia. subst lo.
    replace (range mid mid) with (@nil Z); [reflexivity |].
    unfold range. now rewrite Z.sub_diag.
  - rewrite (range_cons lo hi), (range_cons lo mid) by lia.
    cbn [app]. f_equal. apply IH; lia.
Qed.

Lemma filter_none {A} (p : A -> bool) (l : list A) :
  (forall a, In a l -> p a = false) -> List.filter p l = [].
Proof.
  induction l as [| a l IH]; intros Hp; [reflexivity |].
  cbn [List.filter]. rewrite (Hp a (or_introl eq_refl)). apply IH.
  intros b Hb. apply Hp. now right.
Qed.

(** The positions holding ['1'] can be looked for in any range that covers
    the string. *)
Lemma ones_upto (bit_str : string) (bound : Z) :
  len bit_str <= bound ->
  ones bit_str = List.filter (is_one bit_str) (range 0 bound).
Proof.
  intros Hb. unfold ones.
  rewrite (range_split 0 (len bit_str) bound) by (unfold len in *; lia).
  rewrite List.filter_app, (filter_none _ (range (len bit_str) bound)).
  - now rewrite app_nil_r.
  - intros i Hi. apply range_In in Hi. apply is_one_beyond. lia.
Qed.

(** X8. The kernel depends on [bit_str] only through the positions that hold
    ['1']: two strings that agree on them give the same kernel, so any other
    character counts as ['0'] and a shorter string acts as if padded. *)
Theorem qft_program_ones_only (n : Z) (a b : string) :
  (forall i, is_one a i = is_one b i) ->
  qft_program n a = qft_program n b.
Proof.
  intros Hab. unfold qft_program. rewrite !init_loop_ones. do 3 f_equal.
  rewrite (ones_upto a (Z.max (len a) (len b))), (ones_upto b (Z.max (len a) (len b)))
    by lia.
  apply List.filter_ext. exact Hab.
Qed.

Lemma qft_program_ones_only_witness :
  qft_program 4 "01" = qft_program 4 "x1 0".
Proof.
  apply (qft_program_ones_only 4 "01" "x1 0").
  intros i. unfold is_one.
  destruct (Z.to_nat i) as [| [| [| [| k]]]]; reflexivity.
Defined.

End QASMMore.

(** ** More on the compiler pass [run_pass] *)
Module PipelineMore.
Import QASM Pipeline.

Section RunPassMore.
Variables (Code Exn Val : Type).
Variable base_run_pass : option (bool -> bool -> Pass Code Exn Val).
Variables native_rewrite agg_fold parallelize_pass : Pass Code Exn Val.

Abbreviation run kernel kw s :=
  (run_pass Code Exn Val base_run_pass native_rewrite agg_fold parallelize_pass
     kernel kw (start s)).
Abbreviation eff := (effects base_run_pass native_rewrite agg_fold parallelize_pass).
Abbreviation exc := (raises base_run_pass native_rewrite agg_fold parallelize_pass).

(** Case analysis on the calls of a run, keeping what each call gave. *)
Ltac run_calls kw :=
  unfold run_pass, assert_not_None, bind, call, ret, raise, returned, start;
  cbn [event_target store trace fst snd app];
  destruct base_run_pass as [base |] eqn:Hbase; cbn [fst snd store trace app];
  [ destruct (base _ _ _ _) as [[e1 | v1] s1] eqn:E1; cbn [fst snd store trace app];
    [ | destruct (native_rewrite _ _) as [[e2 | v2] s2] eqn:E2;
        cbn [fst snd store trace app];
        [ | destruct (flag false (kw_parallelize kw)) eqn:Hpar;
            cbn [fst snd store trace app];
            [ destruct (agg_fold _ _) as [[e3 | v3] s3] eqn:E3;
              cbn [fst snd store trace app];
              [ | destruct (parallelize_pass _ _) as [[e4 | v4] s4] eqn:E4;
                  cbn [fst snd store trace app] ]
            | ] ] ]
  | ].

Ltac by_equations :=
  unfold effects, effect, raises, pass_of; cbn [fold_left event_target];
  repeat match goal with
    | H : ?p = (_, _) |- context [?p] => rewrite H; cbn [fst snd]
    end.

(** X9. With [qasm2.extended.run_pass] missing, [run_pass] raises
    AssertionError before it calls any pass, whatever the flags and the
    other passes are, and leaves the store as it was. *)
Theorem run_pass_assertion kernel kw s :
  base_run_pass = None ->
  run kernel kw s = (inl AssertionError, start s).
Proof.
  intros Hnone. unfold run_pass, assert_not_None, bind, raise.
  now rewrite Hnone.
Qed.

(** X10. Whatever the outcome, the store after [run_pass] is the store the
    calls it made have left, one after the other on the same store: an
    exception rolls nothing back. *)
Theorem run_pass_store kernel kw s :
  store (snd (run kernel kw s)) = eff (trace (snd (run kernel kw s))) s.
Proof. run_calls kw; by_equations; reflexivity. Qed.

(** X11. When a pass raises, [run_pass] raises the same exception at once:
    the call that raised is the last call made, and it raised on the store
    the earlier calls had left. *)
Theorem run_pass_propagates kernel kw s (e : Exn) :
  fst (run kernel kw s) = inl (PassError e) ->
  exists before ev,
    trace (snd (run kernel kw s)) = before ++ [ev] /\
    exc (eff before s) ev = Some e.
Proof.
  run_calls kw; intros H; try discriminate H; injection H as <-.
  - exists [], (EvBase (TMethod kernel) (flag true (kw_fold kw)) (flag true (kw_typeinfer kw))).
    split; [reflexivity |]. by_equations. reflexivity.
  - eexists [_], _. split; [reflexivity |]. by_equations. reflexivity.
  - eexists [_; _], _. split; [reflexivity |]. by_equations. reflexivity.
  - eexists [_; _; _], _. split; [reflexivity |]. by_equations. reflexivity.
Qed.

Ltac split_trace Ht before :=
  destruct before as [| ? before]; cbn [app] in Ht;
  [ first [ injection Ht as <- <-; by_equations; reflexivity | discriminate Ht ]
  | first [ injection Ht as <- Ht; split_trace Ht before | discriminate Ht ] ].

(** X12. In a run that returns, no call has raised. *)
Theorem run_pass_returned_no_raise kernel kw s :
  returned (run kernel kw s) = true ->
  forall before ev after,
    trace (snd (run kernel kw s)) = before ++ ev :: after ->
    exc (eff before s) ev = None.
Proof.
  run_calls kw; intros H; try discriminate H; intros before ev after Ht;
    split_trace Ht before.
Qed.

End RunPassMore.

Lemma run_pass_assertion_witness :
  run_pass (list Stmt) string unit None skip_pass skip_pass skip_pass
    qft_ref (Kwargs None None (Some true)) (start qft_store)
  = (inl AssertionError, start qft_store).
Proof.
  apply (run_pass_assertion (list Stmt) string unit None skip_pass skip_pass skip_pass
           qft_ref (Kwargs None None (Some true)) qft_store).
  reflexivity.
Defined.

Lemma run_pass_propagates_witness :
  exists before ev,
    trace (snd (run_pass (list Stmt) string unit (Some (fun _ _ => skip_pass))
                  (failing_pass "UnsupportedGate") skip_pass skip_pass
                  qft_ref (Kwargs None None (Some true)) (start qft_store)))
    = before ++ [ev] /\
    raises (Some (fun _ _ => skip_pass)) (failing_pass "UnsupportedGate") skip_pass skip_pass
      (effects (Some (fun _ _ => skip_pass)) (failing_pass "UnsupportedGate") skip_pass
         skip_pass before qft_store) ev
    = Some "UnsupportedGate"%string.
Proof.
  apply (run_pass_propagates (list Stmt) string unit (Some (fun _ _ => skip_pass))
           (failing_pass "UnsupportedGate") skip_pass skip_pass
           qft_ref (Kwargs None None (Some true)) qft_store).
  reflexivity.
Defined.

Lemma run_pass_returned_no_raise_witness :
  raises (Some (fun _ _ => skip_pass)) skip_pass skip_pass skip_pass
    (effects (Some (fun _ _ => skip_pass)) skip_pass skip_pass skip_pass
       [EvBase (TMethod qft_ref) true true] qft_store)
    (EvNativeRewrite (TCode qft_ref))
  = None.
Proof.
  apply (run_pass_returned_no_raise (list Stmt) string unit (Some (fun _ _ => skip_pass))
           skip_pass skip_pass skip_pass qft_ref (Kwargs None None None) qft_store eq_refl
           [EvBase (TMethod qft_ref) true true] (EvNativeRewrite (TCode qft_ref)) []).
  reflexivity.
Defined.

(** The failing decomposition has emptied the kernel before it raised, and
    the caller finds it so. *)
Example failed_run_keeps_update :
  let out := run_pass (list Stmt) string unit (Some (fun _ _ => skip_pass))
               (failing_pass "UnsupportedGate") skip_pass skip_pass
               qft_ref (Kwargs None None (Some true)) (start qft_store) in
  fst out = inl (PassError "UnsupportedGate"%string)
  /\ store (snd out) !! qft_ref = Some [].
Proof. split; reflexivity. Qed.

(** X13. For every kernel built by [qft], the decorator runs the inherited
    pass with [fold] and [typeinfer] both true, then the decomposition, and
    then the loop-folding fixpoint and the scheduler exactly when [qft] was
    given [parallelize] true. *)
Theorem qft_calls_by_parallelize {Exn Val : Type}
    (base_run_pass : option (bool -> bool -> Pass (list Stmt) Exn Val))
    (native_rewrite agg_fold parallelize_pass : Pass (list Stmt) Exn Val)
    (r : ref) (n : Z) (bit_str : string) (parallelize : bool) :
  returned (decorate base_run_pass native_rewrite agg_fold parallelize_pass r
              (qft n bit_str parallelize)) = true ->
  trace (snd (decorate base_run_pass native_rewrite agg_fold parallelize_pass r
                (qft n bit_str parallelize)))
  = [EvBase (TMethod r) true true; EvNativeRewrite (TCode r)]
    ++ (if parallelize then [EvFoldFixpoint (TMethod r); EvParallelize (TMethod r)] else []).
Proof.
  intros Hr. unfold decorate in *.
  rewrite (PipelineFacts.run_pass_calls_returned _ _ _ _ _ _ _ _ _ _ Hr).
  reflexivity.
Qed.

Lemma qft_calls_by_parallelize_witness :
  trace (snd (decorate (Some (fun _ _ => quiet_pass)) quiet_pass quiet_pass quiet_pass
                qft_ref (qft 4 "0101" false)))
  = [EvBase (TMethod qft_ref) true true; EvNativeRewrite (TCode qft_ref)] ++ [].
Proof.
  apply (qft_calls_by_parallelize (Some (fun _ _ => quiet_pass)) quiet_pass quiet_pass
           quiet_pass qft_ref 4 "0101" false).
  reflexivity.
Defined.

End PipelineMore.

(** ** The measurement cell *)
Module NotebookFacts.
Import QASM Notebook.

Lemma counter_of_snoc (items : list string) (key : string) :
  counter_of (items ++ [key]) = counter_incr key (counter_of items).
Proof. unfold counter_of. now rewrite fold_left_app. Qed.

Lemma total_incr (key : string) (c : Counter) : total (counter_incr key c) = S (total c).
Proof.
  unfold total. induction c as [| [k v] rest IH]; [reflexivity |].
  cbn [counter_incr]. destruct (String.eqb k key); simpl in *; lia.
Qed.

Lemma get_incr (key key' : string) (c : Counter) :
  counter_get key' (counter_incr key c)
  = if String.eqb key' key then S (counter_get key' c) else counter_get key' c.
Proof.
  induction c as [| [k v] rest IH]; cbn [counter_incr counter_get].
  - now rewrite (String.eqb_sym key key').
  - destruct (String.eqb k key) eqn:Hk; cbn [counter_get].
    + apply String.eqb_eq in Hk. subst k.
      rewrite (String.eqb_sym key key'). now destruct (String.eqb key' key).
    + destruct (String.eqb k key') eqn:Hk'; [| exact IH].
      apply String.eqb_eq in Hk'. subst k.
      now rewrite Hk.
Qed.

Lemma keys_incr (key : string) (c : Counter) :
  keys (counter_incr key c)
  = if existsb (String.eqb key) (keys c) then keys c else keys c ++ [key].
Proof.
  unfold keys. induction c as [| [k v] rest IH]; [reflexivity |].
  cbn [counter_incr map fst existsb]. rewrite (String.eqb_sym key k).
  destruct (String.eqb k key); cbn [map fst orb]; [reflexivity |].
  rewrite IH. now destruct (existsb (String.eqb key) (map fst rest)).
Qed.

Lemma first_occurrences_In (items : list string) (x : string) :
  In x (first_occurrences items) <-> In x items.
Proof.
  induction items as [| a items IH]; [reflexivity |].
  cbn [first_occurrences In]. rewrite filter_In, IH. split.
  - intros [-> | [Hx _]]; auto.
  - intros [-> | Hx]; [now left |].
    destruct (String.eqb a x) eqn:Hax.
    + left. now apply String.eqb_eq.
    + right. now split.
Qed.

Lemma existsb_first_occurrences (items : list string) (x : string) :
  existsb (String.eqb x) (first_occurrences items) = existsb (String.eqb x) items.
Proof.
  apply eq_true_iff_eq. rewrite !existsb_exists.
  split; intros (y & Hy & Hxy); exists y; split; auto;
    now apply first_occurrences_In.
Qed.

Lemma first_occurrences_snoc (items : list string) (x : string) :
  first_occurrences (items ++ [x])
  = if existsb (String.eqb x) items
    then first_occurrences items
    else first_occurrences items ++ [x].
Proof.
  induction items as [| a items IH]; [reflexivity |].
  cbn [app first_occurrences existsb]. rewrite IH.
  destruct (String.eqb x a) eqn:Hxa; cbn [orb].
  - apply String.eqb_eq in Hxa. subst a.
    destruct (existsb (String.eqb x) items); [reflexivity |].
    rewrite List.filter_app. cbn [List.filter]. rewrite String.eqb_refl. cbn [negb].
    now rewrite app_nil_r.
  - destruct (existsb (String.eqb x) items); [reflexivity |].
    rewrite List.filter_app. cbn [List.filter].
    rewrite (String.eqb_sym a x), Hxa. reflexivity.
Qed.

Lemma first_occurrences_NoDup (items : list string) : List.NoDup (first_occurrences items).
Proof.
  induction items as [| a items IH]; cbn [first_occurrences]; constructor.
  - intros Ha. apply filter_In in Ha. destruct Ha as [_ Ha].
    rewrite String.eqb_refl in Ha. discriminate Ha.
  - now apply List.NoDup_filter.
Qed.

Lemma occurrences_snoc (key x : string) (items : list string) :
  occurrences key (items ++ [x])
  = (occurrences key items + if String.eqb key x then 1 else 0)%nat.
Proof.
  unfold occurrences. rewrite List.filter_app, length_app. cbn [List.filter].
  now destruct (String.eqb key x).
Qed.

Lemma counter_total (items : list string) : total (counter_of items) = length items.
Proof.
  induction items as [| x items IH] using rev_ind; [reflexivity |].
  rewrite counter_of_snoc, total_incr, IH, length_app. cbn [length]. lia.
Qed.

Lemma counter_get_occurrences (items : list string) (key : string) :
  counter_get key (counter_of items) = occurrences key items.
Proof.
  induction items as [| x items IH] using rev_ind; [reflexivity |].
  rewrite counter_of_snoc, get_incr, IH, occurrences_snoc.
  destruct (String.eqb key x); lia.
Qed.

Lemma counter_keys (items : list string) : keys (counter_of items) = first_occurrences items.
Proof.
  induction items as [| x items IH] using rev_ind; [reflexivity |].
  rewrite counter_of_snoc, keys_incr, IH, first_occurrences_snoc.
  now rewrite existsb_first_occurrences.
Qed.

Section to_bitstrings_facts.
Variable Bit : Type.
Variable str_bit : Bit -> string.

(** X14. [to_bitstrings] counts every shot once: the counts add up to the
    number of results, and none when there are no results. *)
Theorem to_bitstrings_total (results : list (list Bit)) :
  total (to_bitstrings Bit str_bit results) = length results.
Proof. unfold to_bitstrings. now rewrite counter_total, length_map. Qed.

(** X15. For every string, the count [to_bitstrings] holds for it is the
    number of shots that spell it; a string no shot spells counts 0 and is
    not among the keys. *)
Theorem to_bitstrings_counts (results : list (list Bit)) (key : string) :
  counter_get key (to_bitstrings Bit str_bit results)
  = occurrences key (map (join_bits Bit str_bit) results)
  /\ (In key (keys (to_bitstrings Bit str_bit results))
      <-> In key (map (join_bits Bit str_bit) results))
  /\ (In key (keys (to_bitstrings Bit str_bit results))
      <-> (0 < counter_get key (to_bitstrings Bit str_bit results))%nat).
Proof.
  unfold to_bitstrings. rewrite counter_get_occurrences, counter_keys.
  split; [reflexivity | split; [apply first_occurrences_In |]].
  rewrite first_occurrences_In. unfold occurrences. split.
  - intros Hin.
    assert (Hf : In key (List.filter (String.eqb key) (map (join_bits Bit str_bit) results))).
    { apply filter_In. split; [exact Hin | apply String.eqb_refl]. }
    destruct (List.filter _ _); [destruct Hf | cbn; lia].
  - intros Hpos.
    destruct (List.filter (String.eqb key) (map (join_bits Bit str_bit) results))
      as [| y l] eqn:Hf; [cbn in Hpos; lia |].
    assert (Hy : In y (List.filter (String.eqb key) (map (join_bits Bit str_bit) results)))
      by (rewrite Hf; now left).
    apply filter_In in Hy. destruct Hy as [Hy Heq]. apply String.eqb_eq in Heq. now subst y.
Qed.

(** X16. The keys of [to_bitstrings] are the distinct outcomes, each once,
    in the order in which they first occur among the results; so the report
    prints one line per distinct outcome in that order. *)
Theorem to_bitstrings_keys (results : list (list Bit)) :
  keys (to_bitstrings Bit str_bit results)
  = first_occurrences (map (join_bits Bit str_bit) results)
  /\ List.NoDup (keys (to_bitstrings Bit str_bit results))
  /\ length (report (to_bitstrings Bit str_bit results))
     = length (first_occurrences (map (join_bits Bit str_bit) results)).
Proof.
  unfold to_bitstrings, report. rewrite length_map, <- counter_keys.
  split; [reflexivity | split].
  - rewrite counter_keys. apply first_occurrences_NoDup.
  - unfold keys. now rewrite length_map.
Qed.
End to_bitstrings_facts.

(** Three shots of two bits. *)
Example to_bitstrings_sample :
  to_bitstrings Z str [[0; 1]; [1; 1]; [0; 1]] = [("01"%string, 2%nat); ("11"%string, 1%nat)]
  /\ report [("01"%string, 2%nat); ("11"%string, 1%nat)] = ["01 2"%string; "11 1"%string].
Proof. split; vm_compute; reflexivity. Qed.

Lemma random_bit_str_cases (randint : nat -> Z) :
  (forall k, (k < 4)%nat -> randint k = 0 \/ randint k = 1) ->
  len (random_bit_str randint) = 4 /\
  forall k, (k < 4)%nat ->
    is_one (random_bit_str randint) (Z.of_nat k) = (randint k =? 1).
Proof.
  intros Hr. unfold random_bit_str. cbn [seq fold_left].
  destruct (Hr 0%nat ltac:(lia)) as [E0 | E0], (Hr 1%nat ltac:(lia)) as [E1 | E1],
    (Hr 2%nat ltac:(lia)) as [E2 | E2], (Hr 3%nat ltac:(lia)) as [E3 | E3];
    rewrite E0, E1, E2, E3;
    (split; [reflexivity |]);
    intros [| [| [| [| k]]]] Hk; try lia;
    rewrite ?E0, ?E1, ?E2, ?E3; reflexivity.
Qed.

(** X17. Whatever [random.randint(0, 1)] draws, the cell builds a bit string
    of length 4 whose position [k] holds ['1'] exactly when draw [k] was 1,
    and the kernel [qft(4, bit_str)] it compiles reads and writes only
    indices within its registers of size 4. *)
Theorem random_kernel_within_registers (randint : nat -> Z) :
  (forall k, (k < 4)%nat -> randint k = 0 \/ randint k = 1) ->
  len (random_bit_str randint) = 4 /\
  (forall k, (k < 4)%nat ->
     is_one (random_bit_str randint) (Z.of_nat k) = (randint k =? 1)) /\
  Forall (fun s => Forall (fun q => 0 <= q < 4) (qubit_refs s)
                   /\ Forall (fun c => 0 <= c < 4) (bit_refs s))
         (source (kernel randint)).
Proof.
  intros Hr. destruct (random_bit_str_cases randint Hr) as [Hlen Hone].
  split; [exact Hlen | split; [exact Hone |]].
  apply QASMMore.qft_program_refs. lia.
Qed.

Lemma random_kernel_within_registers_witness :
  len (random_bit_str (fun k => Z.of_nat (k mod 2))) = 4 /\
  (forall k, (k < 4)%nat ->
     is_one (random_bit_str (fun k => Z.of_nat (k mod 2))) (Z.of_nat k)
     = (Z.of_nat (k mod 2) =? 1)) /\
  Forall (fun s => Forall (fun q => 0 <= q < 4) (qubit_refs s)
                   /\ Forall (fun c => 0 <= c < 4) (bit_refs s))
         (source (kernel (fun k => Z.of_nat (k mod 2)))).
Proof.
  apply (random_kernel_within_registers (fun k => Z.of_nat (k mod 2))).
  intros [| [| [| [| k]]]] Hk; try lia; vm_compute; auto.
Defined.

End NotebookFacts.
